(** * Valence baseline of espaloma: symmetry classes and potential evaluators

    A shallow embedding of [espaloma/data/alkethoh/independent_baseline.py]:
    the canonicalizer [canonicalize_order], the three equivalence-class
    assigners [get_unique_bonds], [get_unique_angles], [get_unique_torsions]
    and the three evaluators [compute_harmonic_bond_potential],
    [compute_harmonic_angle_potential], [compute_periodic_torsion_potential].

    Conventions of the embedding:
    - Python exceptions are values of [PyError], carried by [result];
    - Python tuples and lists are Rocq lists, [tup[::-1]] is [reverse];
    - a numpy array carries its [dtype] next to its rows, because
      [np.array] of an empty Python list is a float64 array and numpy
      refuses a float array used as an index;
    - numpy floats are idealised as the reals [R];
    - the iteration order of a Python [set] is a parameter ([PySet]). *)

From Stdlib Require Import Reals Lra.
From stdpp Require Import base tactics option list numbers gmap.

Open Scope Z_scope.

(** ** Exceptions *)

Inductive PyError : Set := IndexError | ValueError | KeyError.

Inductive result (A : Type) : Type :=
  | Ok (a : A)
  | Raise (e : PyError).
Arguments Ok {A} a.
Arguments Raise {A} e.

#[global] Instance result_ret : MRet result := λ A a, Ok a.
#[global] Instance result_bind : MBind result := λ A B f r,
  match r with Ok a => f a | Raise e => Raise e end.
#[global] Instance result_fmap : FMap result := λ A B f r,
  match r with Ok a => Ok (f a) | Raise e => Raise e end.

Definition raises {A} (r : result A) : Prop := ∃ e, r = Raise e.

(** ** Comparable values

    What Python's [==] and [<] give on the elements of a tuple. *)

Class PyOrd (A : Type) := { py_eq : A → A → bool; py_lt : A → A → bool }.

#[global] Instance Z_PyOrd : PyOrd Z := {| py_eq := Z.eqb; py_lt := Z.ltb |}.

(** The elements are comparable: [==] is equality and [<] is a strict total
    order on them. *)
Record PyOrdLaws (A : Type) `{PyOrd A} : Prop := {
  py_eq_true : ∀ x y : A, py_eq x y = true ↔ x = y;
  py_lt_asym : ∀ x y : A, py_lt x y = true → py_lt y x = false;
  py_lt_total : ∀ x y : A, x ≠ y → py_lt x y = true ∨ py_lt y x = true
}.

(** [a < b] on tuples: the first position where the two differ decides, a
    proper prefix is smaller. *)
Fixpoint tuple_lt {A} `{PyOrd A} (a b : list A) : bool :=
  match a, b with
  | [], [] => false
  | [], _ :: _ => true
  | _ :: _, [] => false
  | x :: a', y :: b' => if py_eq x y then tuple_lt a' b' else py_lt x y
  end.

(** [min(a, b)]: [b] replaces [a] only when [b < a]. *)
Definition py_min {A} `{PyOrd A} (a b : list A) : list A :=
  if tuple_lt b a then b else a.

(** ** Canonicalizer *)

Definition canonicalize_order {A} `{PyOrd A} (tup : list A) : list A :=
  py_min tup (reverse tup).

(** ** numpy arrays

    A one-dimensional array is the list of its entries, a two-dimensional
    one the list of its rows.  [np.array] infers the element type from the
    Python list it is given: integers give [int64], the empty list gives
    [float64]. *)

Inductive dtype : Set := float64 | int64.

Record ndarray (A : Type) : Type := NdArray { nd_dtype : dtype; nd_data : list A }.
Arguments NdArray {A} _ _.
Arguments nd_dtype {A} _.
Arguments nd_data {A} _.

(** [np.array(l)], for a Python list [l] of integers or of integer tuples. *)
Definition np_array {A} (l : list A) : ndarray A :=
  NdArray (match l with [] => float64 | _ :: _ => int64 end) l.

(** [len(a)] *)
Definition np_len {A} (a : ndarray A) : nat := length (nd_data a).

(** [a[i]] for an integer [i]: a negative index counts from the end, an
    index outside [-len(a), len(a)) raises. *)
Definition np_getitem {A} (a : list A) (i : Z) : result A :=
  let n := Z.of_nat (length a) in
  let j := if i <? 0 then i + n else i in
  if (0 <=? j) && (j <? n)
  then match a !! Z.to_nat j with Some x => Ok x | None => Raise IndexError end
  else Raise IndexError.

(** [a[inds]] for an index array: numpy raises [IndexError] ("arrays used as
    indices must be of integer (or boolean) type") on a float array, also on
    an empty one. *)
Definition np_take {A} (a : list A) (inds : ndarray Z) : result (list A) :=
  match nd_dtype inds with
  | float64 => Raise IndexError
  | int64 => mapM (np_getitem a) (nd_data inds)
  end.

(** [np.reshape(a, (rows, cols))] of a flat array, row-major. *)
Fixpoint rows_of (rows cols : nat) (a : list R) : list (list R) :=
  match rows with
  | O => []
  | S rows' => take cols a :: rows_of rows' cols (drop cols a)
  end.

Definition np_reshape (a : list R) (rows cols : nat) : result (list (list R)) :=
  if decide (length a = (rows * cols)%nat) then Ok (rows_of rows cols a)
  else Raise ValueError.

#[global] Instance R_inhabited : Inhabited R := populate 0%R.

Definition sum_R (l : list R) : R := foldr Rplus 0%R l.

(** [np.sum(e, axis=1)] of a two-dimensional array. *)
Definition np_sum_axis1 (e : list (list R)) : list R := sum_R <$> e.

(** Broadcasting of two trailing dimensions: equal, or one of them is 1. *)
Definition np_broadcast_dim (a b : nat) : result nat :=
  if decide (a = b) then Ok a
  else if decide (a = 1%nat) then Ok b
  else if decide (b = 1%nat) then Ok a
  else Raise ValueError.

Definition np_stretch (n : nat) (l : list R) : list R :=
  match l with [x] => replicate n x | _ => l end.

Fixpoint zip_with3 {A B C D} (f : A → B → C → D)
    (a : list A) (b : list B) (c : list C) : list D :=
  match a, b, c with
  | x :: a', y :: b', z :: c' => f x y z :: zip_with3 f a' b' c'
  | _, _, _ => []
  end.

(** An elementwise function of three one-dimensional operands. *)
Definition np_map3 (f : R → R → R → R) (a b c : list R) : result (list R) :=
  n ← np_broadcast_dim (length a) (length b);
  n ← np_broadcast_dim n (length c);
  mret (zip_with3 f (np_stretch n a) (np_stretch n b) (np_stretch n c)).

(** ** Python sets and dicts *)

(** [range(n)] *)
Definition py_range (n : nat) : list Z := Z.of_nat <$> seq 0 n.

(** The order in which a [set] built from the list [l] is iterated.  Python
    leaves it unspecified; it is a parameter of the assigners. *)
Class PySet (K : Type) := set_iter : list K → list K.

(** What every iteration order satisfies: each element of the set comes
    once. *)
Record PySetLaws (K : Type) `{PySet K} : Prop := {
  set_iter_NoDup : ∀ l : list K, NoDup (set_iter l);
  set_iter_elem : ∀ (l : list K) (x : K), x ∈ set_iter l ↔ x ∈ l
}.

(** One such order, used to run the assigners on examples. *)
Definition dedup_order {K} `{EqDecision K} : PySet K := remove_dups.

(** [len(set(l))] does not depend on the order. *)
Definition len_set {K} `{EqDecision K} (l : list K) : nat := length (remove_dups l).

(** [dict(pairs)]: the pairs are inserted from left to right. *)
Definition py_dict (pairs : list (list Z * Z)) : gmap (list Z) Z :=
  foldl (λ m kv, <[kv.1 := kv.2]> m) ∅ pairs.

(** [d[k]] *)
Definition dict_getitem (d : gmap (list Z) Z) (k : list Z) : result Z :=
  match d !! k with Some v => Ok v | None => Raise KeyError end.

(** ** Molecules

    The molecule is an opaque handle of the toolkits; the assigners read its
    bonds, angles and proper torsions as tuples of atom indices, and the
    symmetry class the symmetry oracle gives each atom. *)

Record Molecule : Type := {
  symmetry_classes : list Z;
  bonds : list (nat * nat);
  angles : list (nat * nat * nat);
  propers : list (nat * nat * nat * nat)
}.

(** [OEPerceiveSymmetry] followed by [GetSymmetryClass] on every atom. *)
Definition atom_symmetry_classes (offmol : Molecule) : list Z :=
  symmetry_classes offmol.

Definition bond_atoms (b : nat * nat) : list nat := [b.1; b.2].
Definition angle_atoms (a : nat * nat * nat) : list nat :=
  let '(i, j, k) := a in [i; j; k].
Definition proper_atoms (t : nat * nat * nat * nat) : list nat :=
  let '(i, j, k, l) := t in [i; j; k; l].

(** [sym[i]] for an atom index [i]. *)
Definition sym_at (sym : list Z) (i : nat) : result Z :=
  match sym !! i with Some c => Ok c | None => Raise IndexError end.

(** ** Equivalence-class assigner *)

(** The [for] loop of the three assigners, on the atoms of each interaction:
    the tuple of atom indices is appended as it is, the tuple of symmetry
    classes is appended canonicalized. *)
Fixpoint interaction_loop (sym : list Z) (interactions : list (list nat))
    (inds : list (list nat)) (tups : list (list Z))
    : result (list (list nat) * list (list Z)) :=
  match interactions with
  | [] => Ok (inds, tups)
  | atoms :: rest =>
      tup ← mapM (sym_at sym) atoms;
      interaction_loop sym rest (inds ++ [atoms]) (tups ++ [canonicalize_order tup])
  end.

Section assigner.
Context `{PySet (list Z)}.

Definition get_unique_bonds (offmol : Molecule)
    : result (ndarray (list nat) * ndarray Z) :=
  let sym := atom_symmetry_classes offmol in
  '(pair_inds, bond_tups) ← interaction_loop sym (bond_atoms <$> bonds offmol) [] [];
  let pair_inds := np_array pair_inds in
  let bond_set := set_iter bond_tups in
  let bond_ind_map := py_dict (zip bond_set (py_range (length bond_set))) in
  bond_inds ← mapM (dict_getitem bond_ind_map) bond_tups;
  mret (pair_inds, np_array bond_inds).

Definition get_unique_angles (offmol : Molecule)
    : result (ndarray (list nat) * ndarray Z) :=
  let sym := atom_symmetry_classes offmol in
  '(triple_inds, angle_tups) ← interaction_loop sym (angle_atoms <$> angles offmol) [] [];
  let triple_inds := np_array triple_inds in
  let angle_set := set_iter angle_tups in
  let angle_ind_map := py_dict (zip angle_set (py_range (length angle_set))) in
  angle_inds ← mapM (dict_getitem angle_ind_map) angle_tups;
  mret (triple_inds, np_array angle_inds).

Definition get_unique_torsions (offmol : Molecule)
    : result (ndarray (list nat) * ndarray Z) :=
  let sym := atom_symmetry_classes offmol in
  '(quad_inds, torsion_tups) ← interaction_loop sym (proper_atoms <$> propers offmol) [] [];
  let quad_inds := np_array quad_inds in
  let torsion_set := set_iter torsion_tups in
  let torsion_ind_map := py_dict (zip torsion_set (py_range (length torsion_set))) in
  torsion_inds ← mapM (dict_getitem torsion_ind_map) torsion_tups;
  mret (quad_inds, np_array torsion_inds).

End assigner.

(** The body the three assigners share, on the atoms of the interactions. *)
Definition class_ids `{PySet (list Z)} (tups : list (list Z)) : result (list Z) :=
  let tup_set := set_iter tups in
  let ind_map := py_dict (zip tup_set (py_range (length tup_set))) in
  mapM (dict_getitem ind_map) tups.

Definition unique_interactions `{PySet (list Z)} (sym : list Z)
    (interactions : list (list nat)) : result (ndarray (list nat) * ndarray Z) :=
  '(inds, tups) ← interaction_loop sym interactions [] [];
  ids ← class_ids tups;
  mret (np_array inds, np_array ids).

(** The tuple of symmetry classes of an interaction, and its CanonicalKey. *)
Definition symmetry_tuple (sym : list Z) (atoms : list nat) : list Z :=
  (λ i, sym !!! i) <$> atoms.

Definition canonical_key (sym : list Z) (atoms : list nat) : list Z :=
  canonicalize_order (symmetry_tuple sym atoms).

(** The atom indices of the molecule's interactions are indices of atoms. *)
Definition atoms_in_range (sym : list Z) (interactions : list (list nat)) : Prop :=
  Forall (Forall (λ i, (i < length sym)%nat)) interactions.

Definition well_formed (offmol : Molecule) : Prop :=
  atoms_in_range (symmetry_classes offmol) (bond_atoms <$> bonds offmol) ∧
  atoms_in_range (symmetry_classes offmol) (angle_atoms <$> angles offmol) ∧
  atoms_in_range (symmetry_classes offmol) (proper_atoms <$> propers offmol).

(** The class id [c] is the position of the key [k] in the iteration [keys]
    of the set. *)
Definition id_of_key (keys : list (list Z)) (k : list Z) (c : Z) : Prop :=
  ∃ i : nat, keys !! i = Some k ∧ c = Z.of_nat i.

(** [n_unique = len(set(inds))], as the driver counts the classes. *)
Definition n_unique_classes (inds : ndarray Z) : nat := len_set (nd_data inds).

(** ** Potential evaluators *)

Definition n_periodicities : nat := 6.

(** [np.arange(n_periodicities) + 1] *)
Definition periodicities : list Z := (λ i : nat, Z.of_nat i + 1) <$> seq 0 n_periodicities.

(** Modelled from the spec: [periodic_torsion_potential] is imported from
    [espaloma.data.alkethoh.mm_utils], whose source is missing.  For a
    torsion with angle [theta], spring constants [ks], phases [phases] and
    periodicities [ns], the spec gives the contribution
    [sum_j k_j * (1 + cos(n_j * theta - phase_j))]. *)
Definition periodic_torsion_term (theta : R) (ks phases : list R) (ns : list Z) : R :=
  sum_R (zip_with3 (λ k phase n, k * (1 + cos (IZR n * theta - phase)))%R ks phases ns).

(** Modelled from the spec: [periodic_torsion_potential] on the arrays (its
    source is missing) gives one contribution per conformation (row of
    [theta]) and per torsion (row of [ks], [phases] and [periodicities_]);
    the evaluator sums them over the torsions. *)
Definition periodic_torsion_potential (theta ks phases : list (list R))
    (periodicities_ : list (list Z)) : result (list (list R)) :=
  mapM (λ row : list R,
    if decide (length row = length ks)
    then Ok (zip_with (λ th '(k, phase, ns), periodic_torsion_term th k phase ns)
               row (zip (zip ks phases) periodicities_))
    else Raise ValueError) theta.

Section evaluators.
Context {conformation : Type}.

(** [compute_distances], [compute_angles] and [compute_torsions] are imported
    from [espaloma.data.alkethoh.neural_baseline], whose source is missing;
    they are parameters.  Each takes the batch of conformations and the
    array of index tuples, and gives, when it does not raise, one row per
    conformation with one coordinate (distance, angle,
    dihedral angle) per index tuple. *)
Variable compute_distances : list conformation → ndarray (list nat) → result (list (list R)).
Variable compute_angles : list conformation → ndarray (list nat) → result (list (list R)).
Variable compute_torsions : list conformation → ndarray (list nat) → result (list (list R)).

(** Modelled from the spec: [harmonic_bond_potential] and
    [harmonic_angle_potential] are imported from
    [espaloma.data.alkethoh.mm_utils], whose source is missing.  The spec has
    them as a pluggable scalar formula of the coordinate, the spring constant
    and the equilibrium value; numpy applies it elementwise, stretching [k]
    and [r0] along the conformations. *)
Variable bond_formula : R → R → R → R.
Variable angle_formula : R → R → R → R.

Definition harmonic_bond_potential (r : list (list R)) (k r0 : list R)
    : result (list (list R)) :=
  mapM (λ row, np_map3 bond_formula row k r0) r.

Definition harmonic_angle_potential (theta : list (list R)) (k theta0 : list R)
    : result (list (list R)) :=
  mapM (λ row, np_map3 angle_formula row k theta0) theta.

Definition compute_harmonic_bond_potential (xyz : list conformation)
    (params : list R) (pair_inds : ndarray (list nat)) (bond_inds : ndarray Z)
    : result (list R) :=
  let n_unique := (length params / 2)%nat in
  let ks := take n_unique params in
  let r0s := drop n_unique params in
  k ← np_take ks bond_inds;
  r0 ← np_take r0s bond_inds;
  r ← compute_distances xyz pair_inds;
  e ← harmonic_bond_potential r k r0;
  mret (np_sum_axis1 e).

Definition compute_harmonic_angle_potential (xyz : list conformation)
    (params : list R) (triple_inds : ndarray (list nat)) (angle_inds : ndarray Z)
    : result (list R) :=
  let n_unique := (length params / 2)%nat in
  let ks := take n_unique params in
  let theta0s := drop n_unique params in
  k ← np_take ks angle_inds;
  theta0 ← np_take theta0s angle_inds;
  theta ← compute_angles xyz triple_inds;
  e ← harmonic_angle_potential theta k theta0;
  mret (np_sum_axis1 e).

Definition compute_periodic_torsion_potential (xyz : list conformation)
    (params : list R) (quad_inds : ndarray (list nat)) (torsion_inds : ndarray Z)
    : result (list R) :=
  theta ← compute_torsions xyz quad_inds;
  let n_unique := (length params / (2 * n_periodicities))%nat in
  params ← np_reshape params n_unique (2 * n_periodicities);
  rows ← np_take params torsion_inds;
  let ks := take n_periodicities <$> rows in
  rows' ← np_take params torsion_inds;
  let phases := drop n_periodicities <$> rows' in
  let periodicities_ := (λ _, periodicities) <$> ks in
  e ← periodic_torsion_potential theta ks phases periodicities_;
  mret (np_sum_axis1 e).

End evaluators.

(** The body the two harmonic evaluators share. *)
Definition harmonic_evaluator {conformation : Type}
    (coordinates : list conformation → ndarray (list nat) → result (list (list R)))
    (formula : R → R → R → R)
    (xyz : list conformation) (params : list R)
    (inds : ndarray (list nat)) (class_inds : ndarray Z) : result (list R) :=
  let n_unique := (length params / 2)%nat in
  k ← np_take (take n_unique params) class_inds;
  x0 ← np_take (drop n_unique params) class_inds;
  x ← coordinates xyz inds;
  e ← mapM (λ row, np_map3 formula row k x0) x;
  mret (np_sum_axis1 e).

(** ** The energies in the words of the spec *)

(** Harmonic energy of one conformation: the sum, over the instances, of the
    formula at the instance's coordinate, with the spring constant read at
    the class id in the first half of the vector and the equilibrium value
    read at the class id in the second half. *)
Definition harmonic_energy (formula : R → R → R → R) (params : list R)
    (class_ids : list Z) (coordinates : list R) : R :=
  let n_unique := (length params / 2)%nat in
  sum_R (zip_with
    (λ x c, formula x (params !!! Z.to_nat c) (params !!! (n_unique + Z.to_nat c)%nat))
    coordinates class_ids).

(** [sum_{j=1..6} k_j * (1 + cos(j*theta - phase_j))], with [k_j] and
    [phase_j] given for [j - 1] in [0, 6). *)
Definition periodic_sum (k phase : nat → R) (theta : R) : R :=
  sum_R ((λ j : nat, k j * (1 + cos (IZR (Z.of_nat j + 1) * theta - phase j)))%R
           <$> seq 0 n_periodicities).

(** Torsion energy of one conformation with the layout the spec gives:
    all spring constants first, all phases second. *)
Definition torsion_energy_blocked (params : list R)
    (class_ids : list Z) (thetas : list R) : R :=
  let n_unique := (length params / (2 * n_periodicities))%nat in
  sum_R (zip_with
    (λ theta c,
       periodic_sum
         (λ j, params !!! (Z.to_nat c * n_periodicities + j)%nat)
         (λ j, params !!! (n_unique * n_periodicities + Z.to_nat c * n_periodicities + j)%nat)
         theta)
    thetas class_ids).

(** Torsion energy of one conformation with one row per class: the six
    spring constants of the class, then its six phases. *)
Definition torsion_energy_rowwise (params : list R)
    (class_ids : list Z) (thetas : list R) : R :=
  sum_R (zip_with
    (λ theta c,
       periodic_sum
         (λ j, params !!! (Z.to_nat c * (2 * n_periodicities) + j)%nat)
         (λ j, params !!! (Z.to_nat c * (2 * n_periodicities) + n_periodicities + j)%nat)
         theta)
    thetas class_ids).

(** ** Guarantees on an assigner's result *)


(** The index tuples come back as enumerated, with a parallel array of class
    ids that are equal exactly on equal CanonicalKeys. *)
Definition parallel_class_ids (r : result (ndarray (list nat) * ndarray Z))
    (sym : list Z) (interactions : list (list nat)) : Prop :=
  ∃ ids,
    r = Ok (np_array interactions, ids) ∧
    np_len ids = length interactions ∧
    ∀ (i j : nat) (ti tj : list nat) (ci cj : Z),
      interactions !! i = Some ti → interactions !! j = Some tj →
      nd_data ids !! i = Some ci → nd_data ids !! j = Some cj →
      ci = cj ↔ canonical_key sym ti = canonical_key sym tj.

(** ** Example molecules *)

(** A linear molecule A-B-A: atoms 0 and 2 have class [a], atom 1 class [b];
    [b1] is the bond between atoms 0 and 1, [b2] the one between 1 and 2. *)
Definition linear_ABA (a b : Z) (b1 b2 : nat * nat) : Molecule :=
  {| symmetry_classes := [a; b; a]; bonds := [b1; b2];
     angles := [(0, 1, 2)%nat]; propers := [] |}.

(** A chain of four atoms with the symmetry of butane's carbon skeleton. *)
Definition chain4 : Molecule :=
  {| symmetry_classes := [1; 2; 2; 1];
     bonds := [(0, 1); (1, 2); (2, 3)]%nat;
     angles := [(0, 1, 2); (1, 2, 3)]%nat;
     propers := [(0, 1, 2, 3)%nat] |}.

(** ** Example inputs of the evaluators *)

(** The harmonic formula the spec names, [0.5 * k * (x - x0)^2]. *)
Definition half_k_square (x k x0 : R) : R := (1 / 2 * k * ((x - x0) * (x - x0)))%R.

(** A coordinate function for examples: conformations carry no data and
    every index tuple has the coordinate [x]. *)
Definition constant_coordinate (x : R) (xyz : list unit) (inds : ndarray (list nat))
    : result (list (list R)) :=
  Ok ((λ _, (λ _, x) <$> nd_data inds) <$> xyz).

(** Methane: a carbon (atom 0) with four equivalent hydrogens; it has bonds
    and angles, and no proper torsion. *)
Definition methane : Molecule :=
  {| symmetry_classes := [1; 2; 2; 2; 2];
     bonds := [(0, 1); (0, 2); (0, 3); (0, 4)]%nat;
     angles := [(1, 0, 2); (1, 0, 3); (1, 0, 4); (2, 0, 3); (2, 0, 4); (3, 0, 4)]%nat;
     propers := [] |}.

(** A torsion ParameterVector for two classes, zero but for its entry 6:
    the first spring constant of class 1 when all spring constants come
    first, the first phase of class 0 when each class has its own row. *)
Definition two_class_params : list R :=
  [0; 0; 0; 0; 0; 0;  1; 0; 0; 0; 0; 0;  0; 0; 0; 0; 0; 0;  0; 0; 0; 0; 0; 0]%R.

(** ** The driver script

    The [__main__] block: it sizes one random ParameterVector per
    interaction type from the number of classes, evaluates the three
    energies, defines the least-squares [loss] over the stacked vector, and
    counts classes over the data set. *)

(** An elementwise function of two one-dimensional arrays. *)
Definition np_map2 (f : R → R → R) (a b : list R) : result (list R) :=
  n ← np_broadcast_dim (length a) (length b);
  mret (zip_with f (np_stretch n a) (np_stretch n b)).

(** [a[:n]], [a[i:j]] and [a[-n:]] for non-negative [n], [i], [j]; note
    that [a[-0:]] is [a[0:]], the whole array. *)
Definition slice_to (a : list R) (n : nat) : list R := take n a.

Definition slice_between (a : list R) (i j : nat) : list R := drop i (take j a).

Definition slice_last (a : list R) (n : nat) : list R :=
  match n with
  | O => a
  | S _ => drop (length a - n) a
  end.

(** The two ways of reversing the direction in which an interaction lists
    its atoms. *)
Definition mirror_bond (b : nat * nat) : nat * nat := (b.2, b.1).
Definition mirror_angle (a : nat * nat * nat) : nat * nat * nat :=
  let '(i, j, k) := a in (k, j, i).
Definition mirror_proper (t : nat * nat * nat * nat) : nat * nat * nat * nat :=
  let '(i, j, k, l) := t in (l, k, j, i).

Section driver.
Context `{PySet (list Z)} {conformation : Type}.
Variable compute_distances : list conformation → ndarray (list nat) → result (list (list R)).
Variable compute_angles : list conformation → ndarray (list nat) → result (list (list R)).
Variable compute_torsions : list conformation → ndarray (list nat) → result (list (list R)).
Variable bond_formula : R → R → R → R.
Variable angle_formula : R → R → R → R.

(** [np.random.randn(n)]: some vector of [n] floats. *)
Variable randn : nat → list R.

(** The bonds, angles and torsions paragraphs of the script, up to the
    three energies. *)
Definition main_energies (offmol : Molecule) (xyz : list conformation)
    : result (list R * list R * list R) :=
  '(pair_inds, bond_inds) ← get_unique_bonds offmol;
  let n_unique_bonds := n_unique_classes bond_inds in
  let n_bond_params := (2 * n_unique_bonds)%nat in
  let bond_params := randn n_bond_params in
  bond_energies ← compute_harmonic_bond_potential compute_distances bond_formula
                    xyz bond_params pair_inds bond_inds;
  '(triple_inds, angle_inds) ← get_unique_angles offmol;
  let n_unique_angles := n_unique_classes angle_inds in
  let n_angle_params := (2 * n_unique_angles)%nat in
  let angle_params := randn n_angle_params in
  angle_energies ← compute_harmonic_angle_potential compute_angles angle_formula
                     xyz angle_params triple_inds angle_inds;
  '(quad_inds, torsion_inds) ← get_unique_torsions offmol;
  let n_unique_torsions := n_unique_classes torsion_inds in
  let n_torsion_params := (2 * n_unique_torsions * n_periodicities)%nat in
  let torsion_params := randn n_torsion_params in
  torsion_energies ← compute_periodic_torsion_potential compute_torsions
                       xyz torsion_params quad_inds torsion_inds;
  mret (bond_energies, angle_energies, torsion_energies).

(** The names [loss] closes over. *)
Variable xyz : list conformation.
Variable pair_inds triple_inds quad_inds : ndarray (list nat).
Variable bond_inds angle_inds torsion_inds : ndarray Z.
Variable n_bond_params n_angle_params n_torsion_params : nat.
Variable valence_target : list R.

(** The body of [loss] once the vector is cut into its three parts. *)
Definition loss_of_parts (bond_params angle_params torsion_params : list R) : result R :=
  bond_energies ← compute_harmonic_bond_potential compute_distances bond_formula
                    xyz bond_params pair_inds bond_inds;
  angle_energies ← compute_harmonic_angle_potential compute_angles angle_formula
                     xyz angle_params triple_inds angle_inds;
  torsion_energies ← compute_periodic_torsion_potential compute_torsions
                       xyz torsion_params quad_inds torsion_inds;
  sum2 ← np_map2 Rplus bond_energies angle_energies;
  U_valence ← np_map2 Rplus sum2 torsion_energies;
  residual ← np_map2 Rminus valence_target U_valence;
  mret (sum_R ((λ x, x ^ 2)%R <$> residual)).

Definition loss (all_params : list R) : result R :=
  let bond_params := slice_to all_params n_bond_params in
  let angle_params :=
    slice_between all_params n_bond_params (n_bond_params + n_angle_params) in
  let torsion_params := slice_last all_params n_torsion_params in
  loss_of_parts bond_params angle_params torsion_params.

End driver.

(** One of the "types" loops of the script: the classes and the
    interactions are counted over the molecules of the data set. *)
Fixpoint count_types (get_unique : Molecule → result (ndarray (list nat) * ndarray Z))
    (offmols : list Molecule) (n_unique n_total : nat) : result (nat * nat) :=
  match offmols with
  | [] => Ok (n_unique, n_total)
  | offmol :: rest =>
      '(_, inds) ← get_unique offmol;
      count_types get_unique rest
        (n_unique + n_unique_classes inds)%nat (n_total + np_len inds)%nat
  end.

(** [n_unique / n_total] of two Python integers; [None] stands for the
    [ZeroDivisionError] of a zero divisor. *)
Definition py_truediv (a b : nat) : option R :=
  if decide (b = 0%nat) then None else Some (INR a / INR b)%R.

(** The fraction each loop prints. *)
Definition types_fraction (get_unique : Molecule → result (ndarray (list nat) * ndarray Z))
    (offmols : list Molecule) : result (option R) :=
  '(n_unique, n_total) ← count_types get_unique offmols 0%nat 0%nat;
  mret (py_truediv n_unique n_total).

(** ** Further guarantees on an assigner's result *)

(** Two interactions have the same class id exactly when their tuples of
    symmetry classes are equal or mirror images of each other. *)
Definition classes_by_symmetry (r : result (ndarray (list nat) * ndarray Z))
    (sym : list Z) (interactions : list (list nat)) : Prop :=
  ∃ inds ids,
    r = Ok (inds, ids) ∧
    ∀ (i j : nat) (ti tj : list nat) (ci cj : Z),
      interactions !! i = Some ti → interactions !! j = Some tj →
      nd_data ids !! i = Some ci → nd_data ids !! j = Some cj →
      ci = cj ↔
      symmetry_tuple sym ti = symmetry_tuple sym tj ∨
      symmetry_tuple sym ti = reverse (symmetry_tuple sym tj).

(** Two results have the same index tuples, the same number of classes and
    class ids that are equal at the same pairs of positions. *)
Definition same_partition (r1 r2 : result (ndarray (list nat) * ndarray Z)) : Prop :=
  ∃ inds ids1 ids2,
    r1 = Ok (inds, ids1) ∧ r2 = Ok (inds, ids2) ∧
    np_len ids1 = np_len ids2 ∧
    n_unique_classes ids1 = n_unique_classes ids2 ∧
    ∀ (i j : nat) (ci cj ci' cj' : Z),
      nd_data ids1 !! i = Some ci → nd_data ids1 !! j = Some cj →
      nd_data ids2 !! i = Some ci' → nd_data ids2 !! j = Some cj' →
      ci = cj ↔ ci' = cj'.

(** Two results have the same class-id array. *)
Definition same_class_ids (r1 r2 : result (ndarray (list nat) * ndarray Z)) : Prop :=
  ∃ inds1 inds2 ids, r1 = Ok (inds1, ids) ∧ r2 = Ok (inds2, ids).

(** [chain4] with its first and last bond listed in the opposite direction. *)
Definition chain4_mirrored : Molecule :=
  {| symmetry_classes := [1; 2; 2; 1];
     bonds := [(1, 0); (1, 2); (3, 2)]%nat;
     angles := [(0, 1, 2); (1, 2, 3)]%nat;
     propers := [(0, 1, 2, 3)%nat] |}.

(** A second iteration order for examples: first occurrences, last first. *)
Definition reversed_order {K} `{EqDecision K} : PySet K := λ l, reverse (remove_dups l).


(** [np.random.randn] for examples: a vector of ones. *)
Definition ones (n : nat) : list R := replicate n 1%R.

(* ================================================================= *)
(** * Properties *)

Section canonicalizer.
Context {A : Type} `{PyOrd A} (laws : PyOrdLaws A).

Lemma py_eq_refl (x : A) : py_eq x x = true.
Proof using laws. by apply (py_eq_true _ laws). Qed.

Lemma py_eq_false (x y : A) : py_eq x y = false → x ≠ y.
Proof using laws. intros Hxy ->. rewrite py_eq_refl in Hxy. done. Qed.

Lemma tuple_lt_asym (a b : list A) :
  tuple_lt a b = true → tuple_lt b a = false.
Proof using laws.
  revert b; induction a as [|x a IH]; intros [|y b]; simpl; try done.
  destruct (py_eq x y) eqn:Exy.
  - apply (py_eq_true _ laws) in Exy as ->. rewrite py_eq_refl. apply IH.
  - intros Hlt. destruct (py_eq y x) eqn:Eyx.
    + apply (py_eq_true _ laws) in Eyx as ->. by rewrite py_eq_refl in Exy.
    + by apply (py_lt_asym _ laws).
Qed.

Lemma tuple_lt_irrefl (a : list A) : tuple_lt a a = false.
Proof using laws.
  destruct (tuple_lt a a) eqn:E; [|done].
  pose proof (tuple_lt_asym _ _ E). congruence.
Qed.

Lemma tuple_lt_total (a b : list A) :
  tuple_lt a b = false → tuple_lt b a = false → a = b.
Proof using laws.
  revert b; induction a as [|x a IH]; intros [|y b]; simpl; try done.
  destruct (py_eq x y) eqn:Exy.
  - apply (py_eq_true _ laws) in Exy as ->. rewrite py_eq_refl.
    intros ??. f_equal. by apply IH.
  - pose proof (py_eq_false _ _ Exy) as Hne.
    destruct (py_eq y x) eqn:Eyx.
    { apply (py_eq_true _ laws) in Eyx. by subst. }
    intros ??. destruct (py_lt_total _ laws x y Hne); congruence.
Qed.

Lemma canonicalize_order_cases (t : list A) :
  canonicalize_order t = t ∨ canonicalize_order t = reverse t.
Proof. unfold canonicalize_order, py_min. destruct (tuple_lt _ _); auto. Qed.

End canonicalizer.

(** ** The error monad *)

Lemma bind_Ok {A B} (f : A → result B) (a : A) : Ok a ≫= f = f a.
Proof. reflexivity. Qed.

Lemma bind_Raise {A B} (f : A → result B) (e : PyError) : Raise e ≫= f = Raise e.
Proof. reflexivity. Qed.

Lemma mapM_Ok {A B} (f : A → result B) (l : list A) (k : list B) :
  Forall2 (λ x y, f x = Ok y) l k → mapM f l = Ok k.
Proof.
  induction 1 as [|x y l k Hxy _ IH]; [done|].
  simpl. rewrite Hxy. simpl. by rewrite IH.
Qed.

Lemma mapM_Ok_inv {A B} (f : A → result B) (l : list A) (k : list B) :
  mapM f l = Ok k → Forall2 (λ x y, f x = Ok y) l k.
Proof.
  revert k; induction l as [|x l IH]; intros k; simpl.
  - intros [= <-]. constructor.
  - destruct (f x) as [y|e] eqn:Hx; simpl; [|done].
    destruct (mapM f l) as [k'|e] eqn:Hl; simpl; [|done].
    intros [= <-]. constructor; auto.
Qed.

Lemma mapM_Ok_fmap {A B} (f : A → result B) (g : A → B) (l : list A) :
  Forall (λ x, f x = Ok (g x)) l → mapM f l = Ok (g <$> l).
Proof.
  intros Hl. apply mapM_Ok. induction Hl; constructor; auto.
Qed.

(** ** Dicts *)

Lemma py_dict_snoc (pairs : list (list Z * Z)) (k : list Z) (v : Z) :
  py_dict (pairs ++ [(k, v)]) = <[k := v]> (py_dict pairs).
Proof. unfold py_dict. by rewrite foldl_app. Qed.

Lemma py_dict_lookup (pairs : list (list Z * Z)) (i : nat) (k : list Z) (v : Z) :
  NoDup pairs.*1 → pairs !! i = Some (k, v) → py_dict pairs !! k = Some v.
Proof.
  revert i; induction pairs as [|[k' v'] pairs IH] using rev_ind; intros i; [done|].
  rewrite fmap_app, py_dict_snoc. simpl. intros Hnd Hi.
  apply NoDup_app in Hnd as (Hnd & Hfresh & _).
  destruct (decide (i < length pairs)%nat) as [Hlt|Hge].
  - rewrite lookup_app_l in Hi by done.
    assert (k ≠ k') as Hne.
    { intros ->. apply (Hfresh k'); [|set_solver].
      apply list_elem_of_fmap. exists (k', v). split; [done|].
      by eapply list_elem_of_lookup_2. }
    rewrite lookup_insert_ne by done. eauto.
  - rewrite lookup_app_r in Hi by lia.
    destruct (i - length pairs)%nat; simpl in Hi; [|done].
    injection Hi as -> ->. apply lookup_insert_eq.
Qed.

Lemma length_py_range (n : nat) : length (py_range n) = n.
Proof. unfold py_range. by rewrite length_fmap, length_seq. Qed.

Lemma lookup_py_range (n i : nat) :
  (i < n)%nat → py_range n !! i = Some (Z.of_nat i).
Proof.
  intros Hi. unfold py_range. rewrite list_lookup_fmap, lookup_seq_lt by done. done.
Qed.

Lemma mapM_Ok_exists {A B} (f : A → result B) (P : A → B → Prop) (l : list A) :
  Forall (λ x, ∃ y, f x = Ok y ∧ P x y) l →
  ∃ k, mapM f l = Ok k ∧ Forall2 P l k.
Proof.
  induction 1 as [|x l (y & Hy & HP) _ (k & Hk & HF)].
  - exists []. by split; [|constructor].
  - exists (y :: k). simpl. rewrite Hy. simpl. rewrite Hk.
    by split; [|constructor].
Qed.

(** ** The loop of the assigners *)

Lemma sym_at_in_range (sym : list Z) (i : nat) :
  (i < length sym)%nat → sym_at sym i = Ok (sym !!! i).
Proof.
  intros Hi. unfold sym_at.
  destruct (lookup_lt_is_Some_2 sym i Hi) as [c Hc].
  rewrite Hc. by rewrite (list_lookup_total_correct _ _ _ Hc).
Qed.

Lemma interaction_loop_in_range sym interactions inds tups :
  atoms_in_range sym interactions →
  interaction_loop sym interactions inds tups
  = Ok (inds ++ interactions, tups ++ (canonical_key sym <$> interactions)).
Proof.
  intros Hwf; revert inds tups.
  induction Hwf as [|atoms rest Hatoms _ IH]; intros inds tups; simpl.
  - by rewrite !app_nil_r.
  - rewrite (mapM_Ok_fmap _ (λ i, sym !!! i)).
    + simpl. rewrite IH. by rewrite <- !app_assoc.
    + eapply Forall_impl; [exact Hatoms|]. intros i. apply sym_at_in_range.
Qed.

Section assigner_facts.
Context `{PySet (list Z)} (set_laws : PySetLaws (list Z)).

Lemma class_ids_spec (tups : list (list Z)) :
  ∃ ids, class_ids tups = Ok ids ∧ Forall2 (id_of_key (set_iter tups)) tups ids.
Proof using set_laws.
  unfold class_ids. apply mapM_Ok_exists.
  apply Forall_forall. intros k Hk.
  apply (set_iter_elem _ set_laws) in Hk.
  apply list_elem_of_lookup in Hk as [i Hi].
  exists (Z.of_nat i). split; [|by exists i].
  unfold dict_getitem.
  erewrite (py_dict_lookup _ i k (Z.of_nat i)); [done| |].
  - rewrite fst_zip by (rewrite length_py_range; lia).
    apply (set_iter_NoDup _ set_laws).
  - apply lookup_zip_with_Some. exists k, (Z.of_nat i).
    split_and!; [done|done|].
    apply lookup_py_range. by eapply lookup_lt_Some.
Qed.

Lemma unique_interactions_spec (sym : list Z) (interactions : list (list nat)) :
  atoms_in_range sym interactions →
  ∃ ids,
    unique_interactions sym interactions = Ok (np_array interactions, np_array ids) ∧
    Forall2 (id_of_key (set_iter (canonical_key sym <$> interactions)))
      (canonical_key sym <$> interactions) ids.
Proof using set_laws.
  intros Hwf. unfold unique_interactions.
  rewrite interaction_loop_in_range by done. simpl.
  destruct (class_ids_spec (canonical_key sym <$> interactions)) as (ids & Hids & Hrel).
  exists ids. by rewrite Hids.
Qed.

End assigner_facts.

(** ** Class ids as positions in a duplicate-free enumeration of the keys *)

Section positions.
Context (keys_set keys : list (list Z)) (ids : list Z).
Context (Hnodup : NoDup keys_set).
Context (Helem : ∀ k, k ∈ keys_set ↔ k ∈ keys).
Context (Hids : Forall2 (id_of_key keys_set) keys ids).

Lemma ids_length : length ids = length keys.
Proof using Hids. symmetry. by eapply Forall2_length. Qed.

Lemma ids_same_iff (i j : nat) (ki kj : list Z) (ci cj : Z) :
  keys !! i = Some ki → keys !! j = Some kj →
  ids !! i = Some ci → ids !! j = Some cj →
  ci = cj ↔ ki = kj.
Proof using Hids Hnodup.
  intros Hki Hkj Hci Hcj.
  destruct (Forall2_lookup_lr _ _ _ _ _ _ Hids Hki Hci) as (a & Ha & ->).
  destruct (Forall2_lookup_lr _ _ _ _ _ _ Hids Hkj Hcj) as (b & Hb & ->).
  split.
  - intros Hab. apply Nat2Z.inj in Hab. subst b. congruence.
  - intros ->. f_equal. by eapply NoDup_lookup.
Qed.

Lemma ids_range (c : Z) : c ∈ ids ↔ 0 ≤ c < Z.of_nat (length keys_set).
Proof using Hids Hnodup Helem.
  split.
  - intros Hc. apply list_elem_of_lookup in Hc as [p Hp].
    destruct (Forall2_lookup_r _ _ _ _ _ Hids Hp) as (k & _ & a & Ha & ->).
    apply lookup_lt_Some in Ha. lia.
  - intros Hc.
    destruct (lookup_lt_is_Some_2 keys_set (Z.to_nat c)) as [k Hk]; [lia|].
    assert (k ∈ keys) as Hin by (apply Helem; by eapply list_elem_of_lookup_2).
    apply list_elem_of_lookup in Hin as [p Hp].
    destruct (Forall2_lookup_l _ _ _ _ _ Hids Hp) as (c' & Hc' & a & Ha & ->).
    assert (a = Z.to_nat c) as -> by by eapply NoDup_lookup.
    rewrite Z2Nat.id in Hc' by lia. by eapply list_elem_of_lookup_2.
Qed.

Lemma len_set_ids : len_set ids = length keys_set.
Proof using Hids Hnodup Helem.
  unfold len_set. rewrite <- (length_py_range (length keys_set)).
  apply Permutation_length, NoDup_Permutation.
  - apply NoDup_remove_dups.
  - unfold py_range. apply NoDup_fmap; [apply Nat2Z.inj'|apply NoDup_seq].
  - intros c. rewrite elem_of_remove_dups, ids_range.
    unfold py_range. rewrite list_elem_of_fmap. split.
    + intros Hc. exists (Z.to_nat c). split; [lia|]. apply elem_of_seq. lia.
    + intros (a & -> & Ha). apply elem_of_seq in Ha. lia.
Qed.


End positions.

(** ** Canonicalizer *)

Lemma Z_PyOrdLaws : PyOrdLaws Z.
Proof.
  split; simpl; intros x y.
  - apply Z.eqb_eq.
  - rewrite Z.ltb_lt, Z.ltb_ge. lia.
  - rewrite !Z.ltb_lt. lia.
Qed.

Lemma dedup_order_laws {K} `{EqDecision K} : @PySetLaws K dedup_order.
Proof.
  split; unfold set_iter, dedup_order.
  - intros l. apply NoDup_remove_dups.
  - intros l x. apply elem_of_remove_dups.
Qed.

Example canonicalize_order_reverses : canonicalize_order [3; 1; 2] = [2; 1; 3].
Proof. reflexivity. Qed.

Example canonicalize_order_keeps : canonicalize_order [1; 4; 2] = [1; 4; 2].
Proof. reflexivity. Qed.

Example tuple_lt_prefix : tuple_lt [1; 2] [1; 2; 0] = true.
Proof. reflexivity. Qed.

Section canonicalizer_claims.
Context {A : Type} `{PyOrd A} (laws : PyOrdLaws A).

Lemma canonicalize_order_reverse (t : list A) :
  canonicalize_order t = canonicalize_order (reverse t).
Proof using laws.
  unfold canonicalize_order, py_min. rewrite reverse_involutive.
  destruct (tuple_lt (reverse t) t) eqn:E1.
  - by rewrite (tuple_lt_asym laws _ _ E1).
  - destruct (tuple_lt t (reverse t)) eqn:E2; [done|].
    by apply (tuple_lt_total laws).
Qed.

Lemma canonicalize_order_idemp (t : list A) :
  canonicalize_order (canonicalize_order t) = canonicalize_order t.
Proof using laws.
  destruct (canonicalize_order_cases t) as [E|E]; rewrite E at 1; [done|].
  symmetry. apply canonicalize_order_reverse.
Qed.

(** C4: [canonicalize_order t] is the smaller of [t] and its reversal under
    the lexicographic order of tuples: it is the reversal exactly when the
    reversal compares smaller, otherwise [t]; neither of the two is smaller
    than the result; and equal inputs give equal outputs. *)
Theorem canonicalize_order_min (t : list A) :
  (tuple_lt (reverse t) t = true → canonicalize_order t = reverse t) ∧
  (tuple_lt (reverse t) t = false → canonicalize_order t = t) ∧
  tuple_lt t (canonicalize_order t) = false ∧
  tuple_lt (reverse t) (canonicalize_order t) = false ∧
  (∀ t' : list A, t = t' → canonicalize_order t = canonicalize_order t').
Proof using laws.
  unfold canonicalize_order, py_min.
  destruct (tuple_lt (reverse t) t) eqn:E; split_and!; try done.
  - by apply (tuple_lt_asym laws).
  - apply (tuple_lt_irrefl laws).
  - intros t' <-. by rewrite E.
  - apply (tuple_lt_irrefl laws).
  - intros t' <-. by rewrite E.
Qed.

(** C5: canonicalization keeps the length, gives the same result on a tuple
    and on its reversal, and leaves a palindromic tuple as it is. *)
Theorem canonicalize_order_reversal_invariant (t : list A) :
  length (canonicalize_order t) = length t ∧
  canonicalize_order t = canonicalize_order (reverse t) ∧
  (reverse t = t → canonicalize_order t = t).
Proof using laws.
  split_and!.
  - destruct (canonicalize_order_cases t) as [->| ->]; [done|apply length_reverse].
  - apply canonicalize_order_reverse.
  - intros Hpal. destruct (canonicalize_order_cases t) as [E|E]; congruence.
Qed.

(** C10: the result is the tuple or its reversal, hence a permutation of the
    tuple, and canonicalizing twice is canonicalizing once. *)
Theorem canonicalize_order_idempotent (t : list A) :
  (canonicalize_order t = t ∨ canonicalize_order t = reverse t) ∧
  canonicalize_order t ≡ₚ t ∧
  canonicalize_order (canonicalize_order t) = canonicalize_order t.
Proof using laws.
  split_and!.
  - apply canonicalize_order_cases.
  - destruct (canonicalize_order_cases t) as [->| ->]; [done|apply reverse_Permutation].
  - apply canonicalize_order_idemp.
Qed.

End canonicalizer_claims.

Lemma canonicalize_order_min_witness :
  PyOrdLaws Z ∧
  canonicalize_order [3; 1; 2] = [2; 1; 3] ∧
  tuple_lt [3; 1; 2] (canonicalize_order [3; 1; 2]) = false.
Proof.
  split; [exact Z_PyOrdLaws|].
  pose proof (canonicalize_order_min Z_PyOrdLaws [3; 1; 2]) as (Hrev & _ & Hle & _).
  split; [apply Hrev; reflexivity | exact Hle].
Defined.

Lemma canonicalize_order_reversal_invariant_witness :
  PyOrdLaws Z ∧
  length (canonicalize_order [3; 1; 2]) = 3%nat ∧
  canonicalize_order [3; 1; 2] = canonicalize_order [2; 1; 3] ∧
  canonicalize_order [4; 7; 4] = [4; 7; 4].
Proof.
  split; [exact Z_PyOrdLaws|].
  pose proof (canonicalize_order_reversal_invariant Z_PyOrdLaws [3; 1; 2]) as (Hlen & Hrev & _).
  pose proof (canonicalize_order_reversal_invariant Z_PyOrdLaws [4; 7; 4]) as (_ & _ & Hpal).
  split_and!; [exact Hlen | exact Hrev | apply Hpal; reflexivity].
Defined.

Lemma canonicalize_order_idempotent_witness :
  PyOrdLaws Z ∧
  canonicalize_order (canonicalize_order [3; 1; 2]) = canonicalize_order [3; 1; 2].
Proof.
  split; [exact Z_PyOrdLaws|].
  exact (proj2 (proj2 (canonicalize_order_idempotent Z_PyOrdLaws [3; 1; 2]))).
Defined.

(** ** Equivalence-class assigner *)

Example get_unique_bonds_chain4 :
  @get_unique_bonds dedup_order chain4
  = Ok (NdArray int64 [[0; 1]; [1; 2]; [2; 3]]%nat, NdArray int64 [1; 0; 1]).
Proof. vm_compute. reflexivity. Qed.

Example get_unique_torsions_methane :
  @get_unique_torsions dedup_order methane = Ok (NdArray float64 [], NdArray float64 []).
Proof. reflexivity. Qed.

Example get_unique_bonds_bad_index :
  @get_unique_bonds dedup_order (linear_ABA 5 7 (0, 1)%nat (2, 4)%nat) = Raise IndexError.
Proof. reflexivity. Qed.

Section assigner_claims.
Context `{PySet (list Z)} (set_laws : PySetLaws (list Z)).

Lemma get_unique_bonds_shape (offmol : Molecule) :
  get_unique_bonds offmol
  = unique_interactions (symmetry_classes offmol) (bond_atoms <$> bonds offmol).
Proof. reflexivity. Qed.

Lemma get_unique_angles_shape (offmol : Molecule) :
  get_unique_angles offmol
  = unique_interactions (symmetry_classes offmol) (angle_atoms <$> angles offmol).
Proof. reflexivity. Qed.

Lemma get_unique_torsions_shape (offmol : Molecule) :
  get_unique_torsions offmol
  = unique_interactions (symmetry_classes offmol) (proper_atoms <$> propers offmol).
Proof. reflexivity. Qed.


Lemma unique_interactions_parallel sym interactions :
  atoms_in_range sym interactions →
  parallel_class_ids (unique_interactions sym interactions) sym interactions.
Proof using set_laws.
  intros Hwf.
  destruct (unique_interactions_spec set_laws sym interactions Hwf) as (ids & Hrun & Hids).
  pose proof (set_iter_NoDup _ set_laws (canonical_key sym <$> interactions)) as Hnd.
  exists (np_array ids). unfold np_len. simpl.
  rewrite (ids_length _ _ _ Hids), length_fmap.
  split_and!; try done.
  intros i j ti tj ci cj Hti Htj Hci Hcj.
  apply (ids_same_iff _ _ _ Hnd Hids i j); try done.
  - by rewrite list_lookup_fmap, Hti.
  - by rewrite list_lookup_fmap, Htj.
Qed.


(** C8: each assigner returns the enumerated atom-index tuples as they are
    and in enumeration order, with a class-id array parallel to them, and two
    interactions have the same class id exactly when their canonicalized
    symmetry-class tuples are equal. *)
Theorem assigner_ids_follow_canonical_keys (offmol : Molecule) :
  well_formed offmol →
  parallel_class_ids (get_unique_bonds offmol)
    (symmetry_classes offmol) (bond_atoms <$> bonds offmol) ∧
  parallel_class_ids (get_unique_angles offmol)
    (symmetry_classes offmol) (angle_atoms <$> angles offmol) ∧
  parallel_class_ids (get_unique_torsions offmol)
    (symmetry_classes offmol) (proper_atoms <$> propers offmol).
Proof using set_laws.
  intros (Hb & Ha & Ht).
  rewrite get_unique_bonds_shape, get_unique_angles_shape, get_unique_torsions_shape.
  split_and!; by apply unique_interactions_parallel.
Qed.

End assigner_claims.

(** ** numpy indexing *)

Lemma np_getitem_in_range {A} `{Inhabited A} (a : list A) (c : Z) :
  0 ≤ c < Z.of_nat (length a) → np_getitem a c = Ok (a !!! Z.to_nat c).
Proof.
  intros Hc. unfold np_getitem.
  replace (c <? 0) with false by (symmetry; apply Z.ltb_ge; lia).
  replace (0 <=? c) with true by (symmetry; apply Z.leb_le; lia).
  replace (c <? Z.of_nat (length a)) with true by (symmetry; apply Z.ltb_lt; lia).
  simpl.
  destruct (lookup_lt_is_Some_2 a (Z.to_nat c)) as [x Hx]; [lia|].
  rewrite Hx. by rewrite (list_lookup_total_correct _ _ _ Hx).
Qed.

Lemma np_getitem_Ok_range {A} (a : list A) (c : Z) (x : A) :
  np_getitem a c = Ok x → - Z.of_nat (length a) ≤ c < Z.of_nat (length a).
Proof.
  unfold np_getitem.
  destruct (c <? 0) eqn:Hneg;
    [apply Z.ltb_lt in Hneg | apply Z.ltb_ge in Hneg];
    destruct (_ <=? _) eqn:H1; simpl; try done;
    destruct (_ <? _) eqn:H2; simpl; try done;
    apply Z.leb_le in H1; apply Z.ltb_lt in H2; intros _; lia.
Qed.

Lemma np_getitem_range_Ok {A} (a : list A) (c : Z) :
  - Z.of_nat (length a) ≤ c < Z.of_nat (length a) → ∃ x, np_getitem a c = Ok x.
Proof.
  intros Hc. unfold np_getitem.
  destruct (c <? 0) eqn:Hneg;
    [apply Z.ltb_lt in Hneg | apply Z.ltb_ge in Hneg].
  - replace (0 <=? c + Z.of_nat (length a)) with true by (symmetry; apply Z.leb_le; lia).
    replace (c + Z.of_nat (length a) <? Z.of_nat (length a)) with true
      by (symmetry; apply Z.ltb_lt; lia).
    simpl.
    destruct (lookup_lt_is_Some_2 a (Z.to_nat (c + Z.of_nat (length a)))) as [x Hx]; [lia|].
    rewrite Hx. eauto.
  - replace (0 <=? c) with true by (symmetry; apply Z.leb_le; lia).
    replace (c <? Z.of_nat (length a)) with true by (symmetry; apply Z.ltb_lt; lia).
    simpl.
    destruct (lookup_lt_is_Some_2 a (Z.to_nat c)) as [x Hx]; [lia|].
    rewrite Hx. eauto.
Qed.

Lemma np_take_in_range {A} `{Inhabited A} (a : list A) (inds : ndarray Z) :
  nd_dtype inds = int64 →
  Forall (λ c, 0 ≤ c < Z.of_nat (length a)) (nd_data inds) →
  np_take a inds = Ok ((λ c, a !!! Z.to_nat c) <$> nd_data inds).
Proof.
  intros Hdt Hin. unfold np_take. rewrite Hdt.
  apply mapM_Ok_fmap. eapply Forall_impl; [exact Hin|].
  intros c. apply np_getitem_in_range.
Qed.

Lemma mapM_raises_iff {A B} (f : A → result B) (l : list A) :
  raises (mapM f l) ↔ Exists (λ x, raises (f x)) l.
Proof.
  unfold raises. induction l as [|x l IH]; simpl.
  - split; [by intros [e ?]|]. by intros ?%Exists_nil.
  - rewrite Exists_cons, <- IH.
    destruct (f x) as [y|e]; simpl.
    + destruct (mapM f l) as [k|e']; simpl.
      * split; [by intros [? ?]|]. intros [[? ?]|[? ?]]; done.
      * split; [eauto|]. eauto.
    + split; eauto.
Qed.

Lemma np_take_raises_iff {A} (a : list A) (inds : ndarray Z) :
  raises (np_take a inds) ↔
  nd_dtype inds = float64 ∨
  Exists (λ c, ¬ (- Z.of_nat (length a) ≤ c < Z.of_nat (length a))) (nd_data inds).
Proof.
  unfold np_take. destruct (nd_dtype inds) eqn:Hdt.
  - split; [by left|]. intros _. by exists IndexError.
  - rewrite mapM_raises_iff. split.
    + intros Hex. right. eapply Exists_impl; [exact Hex|].
      intros c [e He] Hc. destruct (np_getitem_range_Ok a c Hc) as [x Hx]. congruence.
    + intros [?|Hex]; [done|]. eapply Exists_impl; [exact Hex|].
      intros c Hc. destruct (np_getitem a c) as [x|e] eqn:Hx; [|by exists e].
      destruct Hc. by eapply np_getitem_Ok_range.
Qed.

(** ** Elementwise application *)

Lemma np_map3_same_length (f : R → R → R → R) (a b c : list R) :
  length b = length a → length c = length a →
  np_map3 f a b c = Ok (zip_with3 f a b c).
Proof.
  intros Hb Hc. unfold np_map3, np_broadcast_dim.
  rewrite decide_True by done. simpl.
  rewrite decide_True by done. simpl.
  destruct a as [|x [|x' a]], b as [|y [|y' b]], c as [|z [|z' c]]; done.
Qed.

Lemma zip_with3_fmap {A B C D E} (f : A → B → C → D)
    (g : E → A) (h : E → B) (k : E → C) (l : list E) :
  zip_with3 f (g <$> l) (h <$> l) (k <$> l) = (λ x, f (g x) (h x) (k x)) <$> l.
Proof. induction l as [|x l IH]; csimpl; [done|]. by rewrite IH. Qed.

Lemma zip_with3_fmap_r {A B C D E} (f : A → B → C → D)
    (h : E → B) (k : E → C) (a : list A) (l : list E) :
  zip_with3 f a (h <$> l) (k <$> l) = zip_with (λ x c, f x (h c) (k c)) a l.
Proof.
  revert l; induction a as [|x a IH]; intros [|c l]; csimpl; try done.
  by rewrite IH.
Qed.

Lemma sum_R_app (l k : list R) : sum_R (l ++ k) = (sum_R l + sum_R k)%R.
Proof.
  induction l as [|x l IH]; simpl; [lra|]. rewrite IH. lra.
Qed.

Lemma take_drop_lookups {A} `{Inhabited A} (l : list A) (i n : nat) :
  (i + n ≤ length l)%nat →
  take n (drop i l) = (λ j, l !!! (i + j)%nat) <$> seq 0 n.
Proof.
  intros Hlen. apply list_eq. intros j.
  rewrite list_lookup_fmap.
  destruct (decide (j < n)%nat) as [Hj|Hj].
  - rewrite lookup_take_lt, lookup_drop, lookup_seq_lt by done. simpl.
    destruct (lookup_lt_is_Some_2 l (i + j)) as [x Hx]; [lia|].
    rewrite Hx. by rewrite (list_lookup_total_correct _ _ _ Hx).
  - rewrite lookup_take_ge, lookup_seq_ge by lia. done.
Qed.

Lemma rows_of_lookup (rows cols : nat) (a : list R) (c : nat) :
  (c < rows)%nat → rows_of rows cols a !! c = Some (take cols (drop (c * cols) a)).
Proof.
  revert a c; induction rows as [|rows IH]; intros a c Hc; [lia|].
  destruct c as [|c]; simpl; [done|].
  rewrite IH by lia. by rewrite drop_drop.
Qed.

Lemma length_rows_of (rows cols : nat) (a : list R) : length (rows_of rows cols a) = rows.
Proof. revert a; induction rows as [|rows IH]; intros a; simpl; [done|]. by rewrite IH. Qed.

Lemma zip_with_ext_Forall {A B C} (P : B → Prop) (f g : A → B → C)
    (a : list A) (b : list B) :
  Forall P b → (∀ x y, P y → f x y = g x y) → zip_with f a b = zip_with g a b.
Proof.
  intros Hb Hfg. revert a; induction Hb as [|y b Hy _ IH]; intros [|x a]; simpl; try done.
  by rewrite Hfg, IH.
Qed.

(** ** Harmonic evaluators *)

Section harmonic.
Context {conformation : Type}.
Context (coordinates : list conformation → ndarray (list nat) → result (list (list R))).
Context (formula : R → R → R → R).

Lemma compute_harmonic_bond_potential_shape xyz params pair_inds bond_inds :
  compute_harmonic_bond_potential coordinates formula xyz params pair_inds bond_inds
  = harmonic_evaluator coordinates formula xyz params pair_inds bond_inds.
Proof. reflexivity. Qed.

Lemma compute_harmonic_angle_potential_shape xyz params triple_inds angle_inds :
  compute_harmonic_angle_potential coordinates formula xyz params triple_inds angle_inds
  = harmonic_evaluator coordinates formula xyz params triple_inds angle_inds.
Proof. reflexivity. Qed.

Lemma harmonic_evaluator_energy xyz params inds class_inds x :
  nd_dtype class_inds = int64 →
  Forall (λ c, 0 ≤ c < Z.of_nat (length params / 2)) (nd_data class_inds) →
  coordinates xyz inds = Ok x →
  Forall (λ row, length row = np_len class_inds) x →
  harmonic_evaluator coordinates formula xyz params inds class_inds
  = Ok (harmonic_energy formula params (nd_data class_inds) <$> x).
Proof.
  intros Hdt Hin Hx Hrows. unfold harmonic_evaluator, harmonic_energy. cbv zeta.
  assert (2 * (length params / 2) ≤ length params)%nat as Hle
    by apply Nat.Div0.mul_div_le.
  set (n := (length params / 2)%nat) in *.
  rewrite (np_take_in_range (take n params)); [|done|].
  2:{ eapply Forall_impl; [exact Hin|]. intros c. cbv beta. rewrite length_take. lia. }
  rewrite bind_Ok.
  rewrite (np_take_in_range (drop n params)); [|done|].
  2:{ eapply Forall_impl; [exact Hin|]. intros c. cbv beta. rewrite length_drop. lia. }
  rewrite bind_Ok, Hx, bind_Ok.
  rewrite (mapM_Ok_fmap _ (λ row,
    zip_with3 formula row
      ((λ c, take n params !!! Z.to_nat c) <$> nd_data class_inds)
      ((λ c, drop n params !!! Z.to_nat c) <$> nd_data class_inds))).
  2:{ eapply Forall_impl; [exact Hrows|]. intros row Hrow. cbv beta.
      apply np_map3_same_length; rewrite length_fmap; by rewrite Hrow. }
  rewrite bind_Ok. unfold mret, result_ret. f_equal.
  unfold np_sum_axis1. rewrite <- list_fmap_compose.
  apply list_fmap_ext. intros _ row _. unfold compose. f_equal.
  rewrite zip_with3_fmap_r.
  apply (zip_with_ext_Forall _ _ _ _ _ Hin). intros r c Hc. cbv beta.
  f_equal; rewrite !list_lookup_total_alt.
  - rewrite lookup_take_lt by lia. done.
  - rewrite lookup_drop. done.
Qed.

Lemma harmonic_energy_app params ids1 ids2 x1 x2 :
  length x1 = length ids1 →
  harmonic_energy formula params (ids1 ++ ids2) (x1 ++ x2)
  = (harmonic_energy formula params ids1 x1 + harmonic_energy formula params ids2 x2)%R.
Proof.
  intros Hlen. unfold harmonic_energy.
  rewrite zip_with_app by done. apply sum_R_app.
Qed.

End harmonic.

Section harmonic_claims.
Context {conformation : Type}.
Context (compute_distances : list conformation → ndarray (list nat) → result (list (list R))).
Context (bond_formula : R → R → R → R).

(** C6: with [n_unique = len(params) / 2], integer class ids in
    [0, n_unique) and distances with one row per conformation and one entry
    per bond, the harmonic bond evaluator returns one energy per
    conformation; the energy of a conformation is the sum over the bond
    instances of the formula at the instance's distance, with the spring
    constant [params[c]] of the first half and the equilibrium length
    [params[n_unique + c]] of the second half for the instance's class [c];
    and that sum is additive across instances. *)
Theorem harmonic_bond_energy_by_layout xyz params pair_inds bond_inds r :
  nd_dtype bond_inds = int64 →
  Forall (λ c, 0 ≤ c < Z.of_nat (length params / 2)) (nd_data bond_inds) →
  compute_distances xyz pair_inds = Ok r →
  length r = length xyz →
  Forall (λ row, length row = np_len bond_inds) r →
  ∃ energies,
    compute_harmonic_bond_potential compute_distances bond_formula
      xyz params pair_inds bond_inds = Ok energies ∧
    length energies = length xyz ∧
    energies = harmonic_energy bond_formula params (nd_data bond_inds) <$> r ∧
    ∀ ids1 ids2 x1 x2, length x1 = length ids1 →
      harmonic_energy bond_formula params (ids1 ++ ids2) (x1 ++ x2)
      = (harmonic_energy bond_formula params ids1 x1
         + harmonic_energy bond_formula params ids2 x2)%R.
Proof.
  intros Hdt Hin Hr HM Hrows.
  exists (harmonic_energy bond_formula params (nd_data bond_inds) <$> r).
  split_and!.
  - rewrite compute_harmonic_bond_potential_shape.
    by apply harmonic_evaluator_energy.
  - by rewrite length_fmap.
  - done.
  - intros ids1 ids2 x1 x2. apply harmonic_energy_app.
Qed.

End harmonic_claims.

Lemma harmonic_bond_energy_by_layout_witness :
  ∃ energies,
    compute_harmonic_bond_potential (constant_coordinate 1) half_k_square
      [(); ()] [3; 5; 1; 2]%R (np_array [[0; 1]; [1; 2]]%nat) (np_array [1; 0]) = Ok energies ∧
    length energies = 2%nat ∧
    energies = harmonic_energy half_k_square [3; 5; 1; 2]%R [1; 0] <$> [[1; 1]; [1; 1]]%R.
Proof.
  destruct (harmonic_bond_energy_by_layout (constant_coordinate 1) half_k_square
    [(); ()] [3; 5; 1; 2]%R (np_array [[0; 1]; [1; 2]]%nat) (np_array [1; 0])
    [[1; 1]; [1; 1]]%R) as (energies & Hrun & Hlen & Hval & _).
  - reflexivity.
  - repeat constructor; simpl; lia.
  - reflexivity.
  - reflexivity.
  - repeat constructor.
  - exists energies. by split_and!.
Defined.

(** ** Periodic torsion evaluator *)

Lemma zip_rows_fmap {A B C D} (f : A → B) (g : A → C) (p : D) (l : list A) :
  zip (zip (f <$> l) (g <$> l)) ((λ _, p) <$> (f <$> l)) = (λ c, (f c, g c, p)) <$> l.
Proof. induction l as [|x l IH]; csimpl; [done|]. by rewrite IH. Qed.

Lemma periodic_torsion_term_row (params : list R) (c : nat) (theta : R) :
  (c * (2 * n_periodicities) + 2 * n_periodicities ≤ length params)%nat →
  let row := take (2 * n_periodicities) (drop (c * (2 * n_periodicities)) params) in
  periodic_torsion_term theta (take n_periodicities row) (drop n_periodicities row)
    periodicities
  = periodic_sum
      (λ j, params !!! (c * (2 * n_periodicities) + j)%nat)
      (λ j, params !!! (c * (2 * n_periodicities) + n_periodicities + j)%nat)
      theta.
Proof.
  intros Hlen row. unfold periodic_torsion_term, periodic_sum, periodicities, row.
  rewrite take_take, Nat.min_l by (unfold n_periodicities; lia).
  rewrite skipn_firstn_comm, drop_drop.
  replace (2 * n_periodicities - n_periodicities)%nat with n_periodicities
    by (unfold n_periodicities; lia).
  rewrite !take_drop_lookups by (unfold n_periodicities in *; lia).
  by rewrite zip_with3_fmap.
Qed.

Section torsion.
Context {conformation : Type}.
Context (compute_torsions : list conformation → ndarray (list nat) → result (list (list R))).

Lemma torsion_evaluator_energy xyz params quad_inds torsion_inds theta :
  nd_dtype torsion_inds = int64 →
  (length params mod (2 * n_periodicities) = 0)%nat →
  Forall (λ c, 0 ≤ c < Z.of_nat (length params / (2 * n_periodicities)))
    (nd_data torsion_inds) →
  compute_torsions xyz quad_inds = Ok theta →
  Forall (λ row, length row = np_len torsion_inds) theta →
  compute_periodic_torsion_potential compute_torsions xyz params quad_inds torsion_inds
  = Ok (torsion_energy_rowwise params (nd_data torsion_inds) <$> theta).
Proof.
  intros Hdt Hmod Hin Htheta Hrows.
  unfold compute_periodic_torsion_potential, torsion_energy_rowwise. cbv zeta.
  rewrite Htheta, bind_Ok.
  apply Nat.Div0.div_exact in Hmod.
  set (P2 := (2 * n_periodicities)%nat) in *.
  set (n := (length params / P2)%nat) in *.
  unfold np_reshape. rewrite decide_True by lia. rewrite bind_Ok.
  rewrite !(np_take_in_range (rows_of n P2 params)); try done.
  2:{ by rewrite length_rows_of. }
  rewrite !bind_Ok.
  set (row_of := λ c : Z, rows_of n P2 params !!! Z.to_nat c).
  unfold periodic_torsion_potential.
  rewrite (mapM_Ok_fmap _ (λ row,
    zip_with (λ th c,
      periodic_torsion_term th (take n_periodicities (row_of c))
        (drop n_periodicities (row_of c)) periodicities) row (nd_data torsion_inds))).
  2:{ eapply Forall_impl; [exact Hrows|]. intros row Hrow. cbv beta.
      rewrite !length_fmap, decide_True by done. f_equal.
      rewrite zip_rows_fmap, <- list_fmap_compose.
      by rewrite zip_with_fmap_r. }
  rewrite bind_Ok. unfold mret, result_ret. f_equal.
  unfold np_sum_axis1. rewrite <- list_fmap_compose.
  apply list_fmap_ext. intros _ row _. unfold compose. f_equal.
  apply (zip_with_ext_Forall _ _ _ _ _ Hin). intros th c Hc. cbv beta.
  unfold row_of.
  assert (Z.to_nat c < n)%nat as Hlt by lia.
  rewrite (list_lookup_total_correct _ _ _ (rows_of_lookup n P2 params _ Hlt)).
  apply periodic_torsion_term_row. fold P2. nia.
Qed.

End torsion.

Section torsion_claims.
Context {conformation : Type}.
Context (compute_torsions : list conformation → ndarray (list nat) → result (list (list R))).

(** C1 (amended): there are six periodicities, 1 to 6, and the flat
    ParameterVector is read as one row of twelve per class, the six spring
    constants of the class followed by its six phases.  With a vector of
    length [2 * 6 * n_unique], integer class ids in [0, n_unique) and
    dihedral angles with one row per conformation and one entry per torsion,
    the evaluator returns one energy per conformation, the sum over the
    torsion instances of [sum_j k_j * (1 + cos(j * theta - phase_j))] with
    the [k_j] and [phase_j] of the instance's class read from that row. *)
Theorem periodic_torsion_energy_by_rows xyz params quad_inds torsion_inds theta :
  nd_dtype torsion_inds = int64 →
  (length params mod (2 * n_periodicities) = 0)%nat →
  Forall (λ c, 0 ≤ c < Z.of_nat (length params / (2 * n_periodicities)))
    (nd_data torsion_inds) →
  compute_torsions xyz quad_inds = Ok theta →
  length theta = length xyz →
  Forall (λ row, length row = np_len torsion_inds) theta →
  n_periodicities = 6%nat ∧ periodicities = [1; 2; 3; 4; 5; 6] ∧
  ∃ energies,
    compute_periodic_torsion_potential compute_torsions
      xyz params quad_inds torsion_inds = Ok energies ∧
    length energies = length xyz ∧
    energies = torsion_energy_rowwise params (nd_data torsion_inds) <$> theta.
Proof.
  intros Hdt Hmod Hin Htheta HM Hrows. split_and!; [done|done|].
  exists (torsion_energy_rowwise params (nd_data torsion_inds) <$> theta).
  split_and!.
  - by apply torsion_evaluator_energy.
  - by rewrite length_fmap.
  - done.
Qed.

End torsion_claims.

Lemma periodic_torsion_energy_by_rows_witness :
  ∃ energies,
    compute_periodic_torsion_potential (constant_coordinate 0)
      [()] two_class_params (np_array [[0; 1; 2; 3]; [1; 2; 3; 4]]%nat) (np_array [0; 1])
    = Ok energies ∧
    energies = [torsion_energy_rowwise two_class_params [0; 1] [0; 0]%R].
Proof.
  destruct (periodic_torsion_energy_by_rows (constant_coordinate 0)
    [()] two_class_params (np_array [[0; 1; 2; 3]; [1; 2; 3; 4]]%nat) (np_array [0; 1])
    [[0; 0]]%R) as (_ & _ & energies & Hrun & _ & Hval).
  - reflexivity.
  - reflexivity.
  - repeat constructor; simpl; lia.
  - reflexivity.
  - reflexivity.
  - repeat constructor.
  - exists energies. by split.
Defined.

Lemma cos_zero_arg (x : R) : x = 0%R → cos x = 1%R.
Proof. intros ->. apply cos_0. Qed.

Lemma two_class_rowwise_energy :
  torsion_energy_rowwise two_class_params [0; 1] [0; 0]%R = 0%R.
Proof.
  unfold torsion_energy_rowwise, periodic_sum, two_class_params, sum_R. simpl. lra.
Qed.

Lemma two_class_blocked_energy :
  torsion_energy_blocked two_class_params [0; 1] [0; 0]%R = 2%R.
Proof.
  unfold torsion_energy_blocked, periodic_sum, two_class_params, sum_R. simpl.
  repeat match goal with
  | |- context [cos ?x] => rewrite (cos_zero_arg x) by lra
  end.
  lra.
Qed.

(** C1, as stated, fails: with two classes the energy the evaluator returns
    is not the sum read from a vector with all spring constants first and
    all phases second. *)
Lemma periodic_torsion_blocked_layout_counterexample :
  ∃ e,
    compute_periodic_torsion_potential (constant_coordinate 0)
      [()] two_class_params (np_array [[0; 1; 2; 3]; [1; 2; 3; 4]]%nat) (np_array [0; 1])
    = Ok [e] ∧
    e = 0%R ∧
    torsion_energy_blocked two_class_params [0; 1] [0; 0]%R = 2%R ∧
    e ≠ torsion_energy_blocked two_class_params [0; 1] [0; 0]%R.
Proof.
  exists (torsion_energy_rowwise two_class_params [0; 1] [0; 0]%R).
  split_and!.
  - rewrite (torsion_evaluator_energy (constant_coordinate 0) [()] two_class_params
      _ (np_array [0; 1]) [[0; 0]]%R); try done.
    + repeat constructor; simpl; lia.
    + repeat constructor.
  - apply two_class_rowwise_energy.
  - apply two_class_blocked_energy.
  - rewrite two_class_rowwise_energy, two_class_blocked_energy. lra.
Qed.

(** ** Parameter vectors of the wrong length *)

Lemma np_take_length {A} (a : list A) (inds : ndarray Z) (k : list A) :
  np_take a inds = Ok k → length k = length (nd_data inds).
Proof.
  unfold np_take. destruct (nd_dtype inds); [done|].
  intros Hk%mapM_Ok_inv. symmetry. by eapply Forall2_length.
Qed.

Section length_checks.
Context {conformation : Type}.
Context (coordinates : list conformation → ndarray (list nat) → result (list (list R))).
Context (formula : R → R → R → R).

Lemma harmonic_evaluator_raises_iff xyz params inds class_inds x :
  nd_dtype class_inds = int64 →
  coordinates xyz inds = Ok x →
  Forall (λ row, length row = np_len class_inds) x →
  raises (harmonic_evaluator coordinates formula xyz params inds class_inds) ↔
  Exists (λ c, ¬ (- Z.of_nat (length params / 2) ≤ c < Z.of_nat (length params / 2)))
    (nd_data class_inds).
Proof.
  intros Hdt Hx Hrows. unfold harmonic_evaluator. cbv zeta.
  assert (2 * (length params / 2) ≤ length params)%nat as Hle
    by apply Nat.Div0.mul_div_le.
  set (n := (length params / 2)%nat) in *.
  pose proof (np_take_raises_iff (take n params) class_inds) as Hks.
  rewrite length_take, Nat.min_l in Hks by lia.
  destruct (np_take (take n params) class_inds) as [k|e] eqn:Hk.
  - assert (Forall (λ c, - Z.of_nat n ≤ c < Z.of_nat n) (nd_data class_inds)) as Hin.
    { apply Forall_forall. intros c Hc.
      destruct (decide (- Z.of_nat n ≤ c < Z.of_nat n)) as [|Hout]; [done|].
      assert (raises (Ok k : result (list R))) as [e He]; [|done].
      apply Hks. right. apply Exists_exists. eauto. }
    split.
    + intros [e He]. exfalso. revert He. rewrite bind_Ok.
      destruct (np_take (drop n params) class_inds) as [x0|e0] eqn:Hx0.
      2:{ assert (raises (np_take (drop n params) class_inds)) as Hr
            by (rewrite Hx0; by exists e0).
          apply np_take_raises_iff in Hr as [?|Hr]; [congruence|].
          apply Exists_exists in Hr as (c & Hc & Hout).
          rewrite Forall_forall in Hin. specialize (Hin c Hc).
          rewrite length_drop in Hout. lia. }
      rewrite bind_Ok, Hx, bind_Ok.
      rewrite (mapM_Ok_fmap _ (λ row, zip_with3 formula row k x0)); [done|].
      eapply Forall_impl; [exact Hrows|]. intros row Hrow. cbv beta.
      apply np_map3_same_length.
      * by rewrite (np_take_length _ _ _ Hk).
      * by rewrite (np_take_length _ _ _ Hx0).
    + intros Hex. apply Exists_exists in Hex as (c & Hc & Hout).
      rewrite Forall_forall in Hin. by specialize (Hin c Hc).
  - split.
    + intros _. assert (raises (Raise e : result (list R))) as Hr by by exists e.
      apply Hks in Hr as [?|Hr]; [congruence|done].
    + intros _. exists e. by rewrite bind_Raise.
Qed.

End length_checks.

Lemma torsion_evaluator_rejects_length {conformation : Type}
    (compute_torsions : list conformation → ndarray (list nat) → result (list (list R)))
    xyz params quad_inds torsion_inds :
  (length params mod (2 * n_periodicities) ≠ 0)%nat →
  raises (compute_periodic_torsion_potential compute_torsions
            xyz params quad_inds torsion_inds).
Proof.
  intros Hmod. unfold compute_periodic_torsion_potential.
  destruct (compute_torsions xyz quad_inds) as [theta|e]; [|by exists e].
  rewrite bind_Ok. cbv zeta. unfold np_reshape.
  rewrite decide_False; [by exists ValueError|].
  intros Hlen. apply Hmod, Nat.Div0.div_exact. lia.
Qed.

(** C2 (amended): only the periodic torsion evaluator rejects a
    ParameterVector by its length, and it does so when the length is not a
    multiple of [2 * n_periodicities]: the reshape raises.  The harmonic
    bond and angle evaluators check no length: with
    [n = len(params) // 2], integer class ids and coordinates of the
    matching shape, they raise exactly when some class id is outside
    [-n, n); with class ids in [0, n) they return, whatever the length of
    the vector, the energies computed with the spring constant [params[c]]
    and the equilibrium value [params[n + c]]. *)
Theorem parameter_length_checks {conformation : Type}
    (compute_distances compute_angles compute_torsions :
       list conformation → ndarray (list nat) → result (list (list R)))
    (bond_formula angle_formula : R → R → R → R)
    (xyz : list conformation) (params : list R)
    (inds : ndarray (list nat)) (class_inds : ndarray Z) :
  ((length params mod (2 * n_periodicities) ≠ 0)%nat →
   raises (compute_periodic_torsion_potential compute_torsions xyz params inds class_inds)) ∧
  (∀ r, nd_dtype class_inds = int64 →
     compute_distances xyz inds = Ok r →
     Forall (λ row, length row = np_len class_inds) r →
     raises (compute_harmonic_bond_potential compute_distances bond_formula
               xyz params inds class_inds) ↔
     Exists (λ c, ¬ (- Z.of_nat (length params / 2) ≤ c < Z.of_nat (length params / 2)))
       (nd_data class_inds)) ∧
  (∀ theta, nd_dtype class_inds = int64 →
     compute_angles xyz inds = Ok theta →
     Forall (λ row, length row = np_len class_inds) theta →
     raises (compute_harmonic_angle_potential compute_angles angle_formula
               xyz params inds class_inds) ↔
     Exists (λ c, ¬ (- Z.of_nat (length params / 2) ≤ c < Z.of_nat (length params / 2)))
       (nd_data class_inds)) ∧
  (∀ r, nd_dtype class_inds = int64 →
     Forall (λ c, 0 ≤ c < Z.of_nat (length params / 2)) (nd_data class_inds) →
     compute_distances xyz inds = Ok r →
     Forall (λ row, length row = np_len class_inds) r →
     compute_harmonic_bond_potential compute_distances bond_formula
       xyz params inds class_inds
     = Ok (harmonic_energy bond_formula params (nd_data class_inds) <$> r)) ∧
  (∀ theta, nd_dtype class_inds = int64 →
     Forall (λ c, 0 ≤ c < Z.of_nat (length params / 2)) (nd_data class_inds) →
     compute_angles xyz inds = Ok theta →
     Forall (λ row, length row = np_len class_inds) theta →
     compute_harmonic_angle_potential compute_angles angle_formula
       xyz params inds class_inds
     = Ok (harmonic_energy angle_formula params (nd_data class_inds) <$> theta)).
Proof.
  split_and!.
  - apply torsion_evaluator_rejects_length.
  - intros r Hdt Hr Hrows. rewrite compute_harmonic_bond_potential_shape.
    exact (harmonic_evaluator_raises_iff _ _ _ _ _ _ r Hdt Hr Hrows).
  - intros theta Hdt Htheta Hrows. rewrite compute_harmonic_angle_potential_shape.
    exact (harmonic_evaluator_raises_iff _ _ _ _ _ _ theta Hdt Htheta Hrows).
  - intros r Hdt Hin Hr Hrows. rewrite compute_harmonic_bond_potential_shape.
    by apply harmonic_evaluator_energy.
  - intros theta Hdt Hin Htheta Hrows. rewrite compute_harmonic_angle_potential_shape.
    by apply harmonic_evaluator_energy.
Qed.

Lemma parameter_length_checks_witness :
  raises (compute_periodic_torsion_potential (constant_coordinate 0)
            [()] [1; 2; 3]%R (np_array [[0; 1; 2; 3]]%nat) (np_array [0])) ∧
  ¬ raises (compute_harmonic_bond_potential (constant_coordinate 2) half_k_square
              [()] [3; 5; 1]%R (np_array [[0; 1]]%nat) (np_array [0])).
Proof.
  pose proof (parameter_length_checks (constant_coordinate 2) (constant_coordinate 2)
    (constant_coordinate 0) half_k_square half_k_square
    [()] [3; 5; 1]%R (np_array [[0; 1]]%nat) (np_array [0])) as (_ & Hbond & _).
  pose proof (parameter_length_checks (constant_coordinate 2) (constant_coordinate 2)
    (constant_coordinate 0) half_k_square half_k_square
    [()] [1; 2; 3]%R (np_array [[0; 1; 2; 3]]%nat) (np_array [0])) as (Htorsion & _).
  split.
  - apply Htorsion. simpl. lia.
  - rewrite (Hbond [[2%R]]); [|reflexivity|reflexivity|repeat constructor].
    intros Hex. apply Exists_cons in Hex as [Hout|Hex]; [|by apply Exists_nil in Hex].
    apply Hout. simpl. lia.
Defined.

(** C2, as stated, fails: a harmonic ParameterVector of length 3, which is
    not a multiple of [2 * n_unique] for the one class in use, is accepted;
    the evaluator returns the energy computed with [k = params[0]] and
    [r0 = params[1]] and ignores the last entry. *)
Lemma harmonic_odd_length_counterexample :
  n_unique_classes (np_array [0]) = 1%nat ∧
  (length [3; 5; 1]%R mod (2 * n_unique_classes (np_array [0%Z])))%nat = 1%nat ∧
  compute_harmonic_bond_potential (constant_coordinate 2) half_k_square
    [()] [3; 5; 1]%R (np_array [[0; 1]]%nat) (np_array [0])
  = Ok [(half_k_square 2 3 5 + 0)%R].
Proof. split_and!; reflexivity. Qed.

(** ** A molecule without interactions of some arity *)

(** C7: on a molecule without proper torsions, such as methane, the assigner
    returns two empty arrays and there are no classes; but the arrays are
    float arrays, and the torsion evaluator, given them and an empty
    ParameterVector, raises instead of returning an empty or zero energy.
    The same holds for every assigner and its evaluator on a molecule
    without interactions of that arity. *)
Theorem empty_interactions_evaluator_raises `{PySet (list Z)} {conformation : Type}
    (compute_distances compute_angles compute_torsions :
       list conformation → ndarray (list nat) → result (list (list R)))
    (bond_formula angle_formula : R → R → R → R) (xyz : list conformation) :
  get_unique_torsions methane = Ok (np_array [], np_array []) ∧
  (∀ offmol, bonds offmol = [] → get_unique_bonds offmol = Ok (np_array [], np_array [])) ∧
  (∀ offmol, angles offmol = [] → get_unique_angles offmol = Ok (np_array [], np_array [])) ∧
  (∀ offmol, propers offmol = [] → get_unique_torsions offmol = Ok (np_array [], np_array [])) ∧
  np_len (np_array ([] : list Z)) = 0%nat ∧
  n_unique_classes (np_array []) = 0%nat ∧
  compute_harmonic_bond_potential compute_distances bond_formula
    xyz [] (np_array []) (np_array []) = Raise IndexError ∧
  compute_harmonic_angle_potential compute_angles angle_formula
    xyz [] (np_array []) (np_array []) = Raise IndexError ∧
  raises (compute_periodic_torsion_potential compute_torsions
            xyz [] (np_array []) (np_array [])).
Proof.
  split_and!; try reflexivity.
  - intros offmol Hnone. unfold get_unique_bonds. by rewrite Hnone.
  - intros offmol Hnone. unfold get_unique_angles. by rewrite Hnone.
  - intros offmol Hnone. unfold get_unique_torsions. by rewrite Hnone.
  - unfold compute_periodic_torsion_potential.
    destruct (compute_torsions xyz (np_array [])) as [theta|e]; [|by exists e].
    by exists IndexError.
Qed.

(** ** The linear molecule A-B-A *)

Lemma NoDup_single_key (keys_set : list (list Z)) (k : list Z) :
  NoDup keys_set → (∀ x, x ∈ keys_set ↔ x ∈ [k; k]) → keys_set = [k].
Proof.
  intros Hnd Hel. apply Permutation_singleton_r, NoDup_Permutation; [done|..].
  - apply NoDup_singleton.
  - intros x. rewrite Hel, !elem_of_cons, elem_of_nil. tauto.
Qed.

Lemma elem_of_pair {A} (x y z : A) : x ∈ [y; z] → x = y ∨ x = z.
Proof. rewrite !elem_of_cons, elem_of_nil. tauto. Qed.

Lemma linear_ABA_keys (a b : Z) (b1 b2 : nat * nat) :
  b1 ∈ [(0, 1); (1, 0)]%nat → b2 ∈ [(1, 2); (2, 1)]%nat →
  canonical_key [a; b; a] (bond_atoms b1) = canonicalize_order [a; b] ∧
  canonical_key [a; b; a] (bond_atoms b2) = canonicalize_order [a; b].
Proof.
  intros Hb1 Hb2.
  assert (canonicalize_order [b; a] = canonicalize_order [a; b]) as Hrev
    by apply (canonicalize_order_reverse Z_PyOrdLaws [b; a]).
  destruct (elem_of_pair _ _ _ Hb1) as [-> | ->];
    destruct (elem_of_pair _ _ _ Hb2) as [-> | ->]; by split.
Qed.

Section linear_molecule.
Context `{PySet (list Z)} (set_laws : PySetLaws (list Z)).

(** C9: in a linear molecule A-B-A whose end atoms share a symmetry class
    and whose middle atom has another one, [get_unique_bonds] gives the two
    bonds the same class id, and there is exactly one bond class; this
    holds in whichever direction each bond lists its two atoms. *)
Theorem linear_ABA_single_bond_class (a b : Z) (b1 b2 : nat * nat) :
  a ≠ b →
  b1 ∈ [(0, 1); (1, 0)]%nat → b2 ∈ [(1, 2); (2, 1)]%nat →
  ∃ bond_inds,
    get_unique_bonds (linear_ABA a b b1 b2)
    = Ok (np_array [bond_atoms b1; bond_atoms b2], bond_inds) ∧
    nd_data bond_inds = [0; 0] ∧
    n_unique_classes bond_inds = 1%nat.
Proof using set_laws.
  intros _ Hb1 Hb2.
  destruct (linear_ABA_keys a b b1 b2 Hb1 Hb2) as [Hk1 Hk2].
  assert (atoms_in_range [a; b; a] [bond_atoms b1; bond_atoms b2]) as Hwf.
  { destruct (elem_of_pair _ _ _ Hb1) as [-> | ->];
      destruct (elem_of_pair _ _ _ Hb2) as [-> | ->];
      repeat constructor; simpl; lia. }
  destruct (unique_interactions_spec set_laws _ _ Hwf) as (ids & Hrun & Hids).
  exists (np_array ids). rewrite get_unique_bonds_shape. split; [exact Hrun|].
  revert Hids. csimpl. rewrite Hk1, Hk2.
  set (k := canonicalize_order [a; b]).
  rewrite (NoDup_single_key (set_iter [k; k]) k
    (set_iter_NoDup _ set_laws _) (set_iter_elem _ set_laws _)).
  intros Hids.
  apply Forall2_cons_inv_l in Hids as (c1 & ids' & (i1 & Hi1 & ->) & Hids & ->).
  apply Forall2_cons_inv_l in Hids as (c2 & ids'' & (i2 & Hi2 & ->) & Hids & ->).
  apply Forall2_nil_inv_l in Hids as ->.
  destruct i1 as [|i1]; [|done]. destruct i2 as [|i2]; [|done].
  by split.
Qed.

End linear_molecule.

Lemma linear_ABA_single_bond_class_witness :
  ∃ bond_inds,
    @get_unique_bonds dedup_order (linear_ABA 5 7 (0, 1)%nat (2, 1)%nat)
    = Ok (np_array [[0; 1]; [2; 1]]%nat, bond_inds) ∧
    nd_data bond_inds = [0; 0] ∧
    n_unique_classes bond_inds = 1%nat.
Proof.
  apply (@linear_ABA_single_bond_class dedup_order dedup_order_laws 5 7 (0, 1)%nat (2, 1)%nat).
  - lia.
  - apply list_elem_of_here.
  - apply list_elem_of_further, list_elem_of_here.
Defined.

Lemma chain4_well_formed : well_formed chain4.
Proof. unfold well_formed, atoms_in_range. split_and!; repeat constructor; simpl; lia. Qed.


Lemma assigner_ids_follow_canonical_keys_witness :
  parallel_class_ids (@get_unique_bonds dedup_order chain4)
    [1; 2; 2; 1] [[0; 1]; [1; 2]; [2; 3]]%nat ∧
  parallel_class_ids (@get_unique_angles dedup_order chain4)
    [1; 2; 2; 1] [[0; 1; 2]; [1; 2; 3]]%nat ∧
  parallel_class_ids (@get_unique_torsions dedup_order chain4)
    [1; 2; 2; 1] [[0; 1; 2; 3]]%nat.
Proof.
  exact (@assigner_ids_follow_canonical_keys dedup_order dedup_order_laws chain4
           chain4_well_formed).
Defined.

(* ================================================================= *)
(** * Further properties of the code *)

(** ** Canonical keys identify a tuple up to reversal *)

Lemma canonicalize_order_eq_inv {A} `{PyOrd A} (a b : list A) :
  canonicalize_order a = canonicalize_order b → a = b ∨ a = reverse b.
Proof.
  destruct (canonicalize_order_cases a) as [-> | ->],
    (canonicalize_order_cases b) as [-> | ->]; intros Hab; auto.
  - right. by rewrite <- Hab, reverse_involutive.
  - left. by apply (inj reverse).
Qed.

Lemma canonical_forms_equal {A} `{PyOrd A} (laws : PyOrdLaws A) (a b : list A) :
  canonicalize_order a = canonicalize_order b ↔ a = b ∨ a = reverse b.
Proof.
  split; [apply canonicalize_order_eq_inv|].
  intros [-> | ->]; [done|]. symmetry. by apply canonicalize_order_reverse.
Qed.

(** X1: two tuples have the same canonical form exactly when they are equal
    or one is the reversal of the other. *)
Theorem canonicalize_order_eq_iff {A} `{PyOrd A} (laws : PyOrdLaws A) (a b : list A) :
  canonicalize_order a = canonicalize_order b ↔ a = b ∨ a = reverse b.
Proof. by apply canonical_forms_equal. Qed.

Lemma canonicalize_order_eq_iff_witness :
  (canonicalize_order [3; 1; 2] = canonicalize_order [2; 1; 3]) ∧
  (canonicalize_order [3; 1; 2] = canonicalize_order [1; 2; 3] → False).
Proof.
  split.
  - apply (canonicalize_order_eq_iff Z_PyOrdLaws [3; 1; 2] [2; 1; 3]). by right.
  - intros Heq. apply (canonicalize_order_eq_iff Z_PyOrdLaws) in Heq as [Heq|Heq]; done.
Defined.

(** ** Classes follow the symmetry classes of the atoms *)

Section symmetry_classes.
Context `{PySet (list Z)} (set_laws : PySetLaws (list Z)).

Lemma unique_interactions_by_symmetry sym interactions :
  atoms_in_range sym interactions →
  classes_by_symmetry (unique_interactions sym interactions) sym interactions.
Proof using set_laws.
  intros Hwf.
  destruct (unique_interactions_parallel set_laws sym interactions Hwf)
    as (ids & Hrun & _ & Hsame).
  exists (np_array interactions), ids. split; [done|].
  intros i j ti tj ci cj Hti Htj Hci Hcj.
  rewrite (Hsame i j ti tj ci cj) by done.
  apply (canonical_forms_equal Z_PyOrdLaws).
Qed.

(** X2: on a well-formed molecule, two bonds (angles, torsions) receive the
    same class id exactly when the symmetry classes of their atoms agree
    position by position, read in the same or in opposite directions. *)
Theorem assigner_classes_by_symmetry (offmol : Molecule) :
  well_formed offmol →
  classes_by_symmetry (get_unique_bonds offmol)
    (symmetry_classes offmol) (bond_atoms <$> bonds offmol) ∧
  classes_by_symmetry (get_unique_angles offmol)
    (symmetry_classes offmol) (angle_atoms <$> angles offmol) ∧
  classes_by_symmetry (get_unique_torsions offmol)
    (symmetry_classes offmol) (proper_atoms <$> propers offmol).
Proof using set_laws.
  intros (Hb & Ha & Ht).
  rewrite get_unique_bonds_shape, get_unique_angles_shape, get_unique_torsions_shape.
  split_and!; by apply unique_interactions_by_symmetry.
Qed.

End symmetry_classes.

Lemma assigner_classes_by_symmetry_witness :
  classes_by_symmetry (@get_unique_bonds dedup_order chain4)
    [1; 2; 2; 1] [[0; 1]; [1; 2]; [2; 3]]%nat ∧
  classes_by_symmetry (@get_unique_angles dedup_order chain4)
    [1; 2; 2; 1] [[0; 1; 2]; [1; 2; 3]]%nat ∧
  classes_by_symmetry (@get_unique_torsions dedup_order chain4)
    [1; 2; 2; 1] [[0; 1; 2; 3]]%nat.
Proof.
  apply (@assigner_classes_by_symmetry dedup_order dedup_order_laws chain4).
  unfold well_formed, atoms_in_range. split_and!; repeat constructor; simpl; lia.
Defined.

(** ** Class ids do not depend on the direction of enumeration *)

Lemma canonical_key_reverse (sym : list Z) (atoms : list nat) :
  canonical_key sym (reverse atoms) = canonical_key sym atoms.
Proof.
  unfold canonical_key, symmetry_tuple. rewrite fmap_reverse.
  symmetry. apply (canonicalize_order_reverse Z_PyOrdLaws).
Qed.

Lemma mirrored_keys (sym : list Z) (interactions interactions' : list (list nat)) :
  Forall2 (λ t t', t' = t ∨ t' = reverse t) interactions interactions' →
  canonical_key sym <$> interactions' = canonical_key sym <$> interactions.
Proof.
  induction 1 as [|t t' l l' [-> | ->] _ IH]; csimpl; [done|..]; rewrite IH; [done|].
  by rewrite canonical_key_reverse.
Qed.

Lemma mirrored_in_range (sym : list Z) (interactions interactions' : list (list nat)) :
  Forall2 (λ t t', t' = t ∨ t' = reverse t) interactions interactions' →
  atoms_in_range sym interactions → atoms_in_range sym interactions'.
Proof.
  unfold atoms_in_range.
  induction 1 as [|t t' l l' Ht _ IH]; [done|].
  intros [Hin Hrest]%Forall_cons. constructor; [|by apply IH].
  destruct Ht as [-> | ->]; [done|]. by apply Forall_reverse.
Qed.

Section direction.
Context `{PySet (list Z)} (set_laws : PySetLaws (list Z)).

Lemma unique_interactions_mirror sym interactions interactions' :
  atoms_in_range sym interactions →
  Forall2 (λ t t', t' = t ∨ t' = reverse t) interactions interactions' →
  same_class_ids (unique_interactions sym interactions)
    (unique_interactions sym interactions').
Proof using set_laws.
  intros Hwf Hmirror.
  pose proof (mirrored_in_range sym _ _ Hmirror Hwf) as Hwf'.
  destruct (class_ids_spec set_laws (canonical_key sym <$> interactions))
    as (ids & Hids & _).
  exists (np_array interactions), (np_array interactions'), (np_array ids).
  unfold unique_interactions.
  rewrite !interaction_loop_in_range by done. simpl.
  rewrite (mirrored_keys sym _ _ Hmirror), Hids. done.
Qed.

(** X3: listing the atoms of any bond, angle or torsion in the opposite
    direction changes no class id: two well-formed molecules with the same
    symmetry classes whose interactions agree up to direction get the same
    class-id array. *)
Theorem class_ids_ignore_direction (offmol offmol' : Molecule) :
  well_formed offmol →
  symmetry_classes offmol' = symmetry_classes offmol →
  (Forall2 (λ b b', b' = b ∨ b' = mirror_bond b) (bonds offmol) (bonds offmol') →
   same_class_ids (get_unique_bonds offmol) (get_unique_bonds offmol')) ∧
  (Forall2 (λ a a', a' = a ∨ a' = mirror_angle a) (angles offmol) (angles offmol') →
   same_class_ids (get_unique_angles offmol) (get_unique_angles offmol')) ∧
  (Forall2 (λ t t', t' = t ∨ t' = mirror_proper t) (propers offmol) (propers offmol') →
   same_class_ids (get_unique_torsions offmol) (get_unique_torsions offmol')).
Proof using set_laws.
  intros (Hb & Ha & Ht) Hsym.
  rewrite !get_unique_bonds_shape, !get_unique_angles_shape, !get_unique_torsions_shape.
  rewrite Hsym.
  split_and!; intros Hmirror; apply unique_interactions_mirror; try done;
    apply Forall2_fmap; (eapply Forall2_impl; [exact Hmirror|]).
  - intros [i j] b' [-> | ->]; [by left | by right].
  - intros [[i j] k] a' [-> | ->]; [by left | by right].
  - intros [[[i j] k] l] t' [-> | ->]; [by left | by right].
Qed.

End direction.

Lemma class_ids_ignore_direction_witness :
  same_class_ids (@get_unique_bonds dedup_order chain4)
    (@get_unique_bonds dedup_order chain4_mirrored).
Proof.
  destruct (@class_ids_ignore_direction dedup_order dedup_order_laws
              chain4 chain4_mirrored) as (Hbonds & _ & _).
  - unfold well_formed, atoms_in_range. split_and!; repeat constructor; simpl; lia.
  - reflexivity.
  - apply Hbonds. simpl.
    constructor; [by right|]. constructor; [by left|]. constructor; [by right|].
    constructor.
Defined.

(** ** Class ids do not depend on the iteration order of the set *)

Section two_orders.
Context (order1 order2 : PySet (list Z)).
Context (laws1 : @PySetLaws (list Z) order1) (laws2 : @PySetLaws (list Z) order2).

Lemma unique_interactions_same_partition sym interactions :
  atoms_in_range sym interactions →
  same_partition (@unique_interactions order1 sym interactions)
    (@unique_interactions order2 sym interactions).
Proof using laws1 laws2.
  intros Hwf.
  destruct (@unique_interactions_spec order1 laws1 sym interactions Hwf)
    as (ids1 & Hrun1 & Hids1).
  destruct (@unique_interactions_spec order2 laws2 sym interactions Hwf)
    as (ids2 & Hrun2 & Hids2).
  set (keys := canonical_key sym <$> interactions) in *.
  pose proof (@set_iter_NoDup _ order1 laws1 keys) as Hnd1.
  pose proof (@set_iter_NoDup _ order2 laws2 keys) as Hnd2.
  pose proof (@set_iter_elem _ order1 laws1 keys) as Hel1.
  pose proof (@set_iter_elem _ order2 laws2 keys) as Hel2.
  exists (np_array interactions), (np_array ids1), (np_array ids2).
  unfold np_len, n_unique_classes. simpl.
  rewrite (len_set_ids _ _ _ Hnd1 Hel1 Hids1), (len_set_ids _ _ _ Hnd2 Hel2 Hids2).
  rewrite (ids_length _ _ _ Hids1), (ids_length _ _ _ Hids2).
  split_and!; try done.
  - apply Permutation_length, NoDup_Permutation; try done.
    intros k. by rewrite Hel1, Hel2.
  - intros i j ci cj ci' cj' Hci Hcj Hci' Hcj'.
    destruct (Forall2_lookup_r _ _ _ _ _ Hids1 Hci) as (ki & Hki & _).
    destruct (Forall2_lookup_r _ _ _ _ _ Hids1 Hcj) as (kj & Hkj & _).
    rewrite (ids_same_iff _ _ _ Hnd1 Hids1 i j ki kj ci cj) by done.
    by rewrite (ids_same_iff _ _ _ Hnd2 Hids2 i j ki kj ci' cj').
Qed.

(** X4: whatever the iteration order of the Python set, each assigner
    returns the same index tuples, the same number of classes and the same
    partition of the interactions into classes; only the labels change. *)
Theorem class_partition_independent_of_set_order (offmol : Molecule) :
  well_formed offmol →
  same_partition (@get_unique_bonds order1 offmol) (@get_unique_bonds order2 offmol) ∧
  same_partition (@get_unique_angles order1 offmol) (@get_unique_angles order2 offmol) ∧
  same_partition (@get_unique_torsions order1 offmol) (@get_unique_torsions order2 offmol).
Proof using laws1 laws2.
  intros (Hb & Ha & Ht).
  rewrite !get_unique_bonds_shape, !get_unique_angles_shape, !get_unique_torsions_shape.
  split_and!; by apply unique_interactions_same_partition.
Qed.

End two_orders.

Lemma reversed_order_laws {K} `{EqDecision K} : @PySetLaws K reversed_order.
Proof.
  split; unfold set_iter, reversed_order.
  - intros l. rewrite reverse_Permutation. apply NoDup_remove_dups.
  - intros l x. by rewrite elem_of_reverse, elem_of_remove_dups.
Qed.

Example get_unique_bonds_chain4_reversed_order :
  @get_unique_bonds reversed_order chain4
  = Ok (NdArray int64 [[0; 1]; [1; 2]; [2; 3]]%nat, NdArray int64 [0; 1; 0]).
Proof. vm_compute. reflexivity. Qed.

Lemma class_partition_independent_of_set_order_witness :
  same_partition (@get_unique_bonds dedup_order chain4)
    (@get_unique_bonds reversed_order chain4) ∧
  same_partition (@get_unique_angles dedup_order chain4)
    (@get_unique_angles reversed_order chain4) ∧
  same_partition (@get_unique_torsions dedup_order chain4)
    (@get_unique_torsions reversed_order chain4).
Proof.
  apply (class_partition_independent_of_set_order dedup_order reversed_order
           dedup_order_laws reversed_order_laws chain4).
  unfold well_formed, atoms_in_range. split_and!; repeat constructor; simpl; lia.
Defined.

(** ** More on the evaluators *)

Lemma np_take_app_l {A} `{Inhabited A} (a b : list A) (inds : ndarray Z) :
  nd_dtype inds = int64 →
  Forall (λ c, 0 ≤ c < Z.of_nat (length a)) (nd_data inds) →
  np_take (a ++ b) inds = np_take a inds.
Proof.
  intros Hdt Hin. rewrite !np_take_in_range; try done.
  - f_equal. apply Forall_fmap_ext_1. eapply Forall_impl; [exact Hin|].
    intros c Hc. cbv beta in Hc |- *.
    rewrite !list_lookup_total_alt. rewrite lookup_app_l by lia. done.
  - eapply Forall_impl; [exact Hin|]. intros c. cbv beta. rewrite length_app. lia.
Qed.

Section evaluator_extras.
Context {conformation : Type}.
Context (coordinates : list conformation → ndarray (list nat) → result (list (list R))).
Context (formula : R → R → R → R).

(** X5: with integer class ids in [0, len(params) // 2) and angles with one
    row per conformation and one entry per angle instance, the harmonic
    angle evaluator returns one energy per conformation, the sum over the
    angle instances of the formula at the instance's angle with the spring
    constant [params[c]] and the equilibrium angle [params[n + c]] of the
    instance's class [c]. *)
Theorem harmonic_angle_energy_by_layout xyz params triple_inds angle_inds theta :
  nd_dtype angle_inds = int64 →
  Forall (λ c, 0 ≤ c < Z.of_nat (length params / 2)) (nd_data angle_inds) →
  coordinates xyz triple_inds = Ok theta →
  length theta = length xyz →
  Forall (λ row, length row = np_len angle_inds) theta →
  ∃ energies,
    compute_harmonic_angle_potential coordinates formula
      xyz params triple_inds angle_inds = Ok energies ∧
    length energies = length xyz ∧
    energies = harmonic_energy formula params (nd_data angle_inds) <$> theta.
Proof.
  intros Hdt Hin Htheta HM Hrows.
  exists (harmonic_energy formula params (nd_data angle_inds) <$> theta).
  split_and!; [|by rewrite length_fmap|done].
  rewrite compute_harmonic_angle_potential_shape.
  by apply harmonic_evaluator_energy.
Qed.

Lemma harmonic_evaluator_surplus xyz params x inds class_inds :
  Nat.Even (length params) →
  nd_dtype class_inds = int64 →
  Forall (λ c, 0 ≤ c < Z.of_nat (length params / 2)) (nd_data class_inds) →
  harmonic_evaluator coordinates formula xyz (params ++ [x]) inds class_inds
  = harmonic_evaluator coordinates formula xyz params inds class_inds.
Proof.
  intros [n Hn] Hdt Hin. unfold harmonic_evaluator. cbv zeta.
  rewrite length_app. simpl length.
  replace ((length params + 1) / 2)%nat with n
    by (rewrite Hn; apply (Nat.div_unique _ 2 n 1); lia).
  replace (length params / 2)%nat with n in *
    by (rewrite Hn; apply (Nat.div_unique _ 2 n 0); lia).
  rewrite take_app_le, drop_app_le by lia.
  rewrite (np_take_app_l (drop n params) [x]); [done|done|].
  eapply Forall_impl; [exact Hin|]. intros c. cbv beta. rewrite length_drop. lia.
Qed.

(** X7: a harmonic ParameterVector of even length followed by one surplus
    entry gives, for class ids in [0, n), the result of the vector without
    it, in both harmonic evaluators: the surplus entry is not read and no
    error is raised for it. *)
Theorem harmonic_surplus_entry_ignored xyz params x inds class_inds :
  Nat.Even (length params) →
  nd_dtype class_inds = int64 →
  Forall (λ c, 0 ≤ c < Z.of_nat (length params / 2)) (nd_data class_inds) →
  compute_harmonic_bond_potential coordinates formula xyz (params ++ [x]) inds class_inds
  = compute_harmonic_bond_potential coordinates formula xyz params inds class_inds ∧
  compute_harmonic_angle_potential coordinates formula xyz (params ++ [x]) inds class_inds
  = compute_harmonic_angle_potential coordinates formula xyz params inds class_inds.
Proof.
  intros Heven Hdt Hin.
  split; exact (harmonic_evaluator_surplus xyz params x inds class_inds Heven Hdt Hin).
Qed.

End evaluator_extras.

Lemma harmonic_angle_energy_by_layout_witness :
  ∃ energies,
    compute_harmonic_angle_potential (constant_coordinate 2) half_k_square
      [(); (); ()] [3; 5; 1; 2]%R (np_array [[0; 1; 2]; [1; 2; 3]]%nat) (np_array [0; 0])
    = Ok energies ∧
    length energies = 3%nat.
Proof.
  destruct (harmonic_angle_energy_by_layout (constant_coordinate 2) half_k_square
    [(); (); ()] [3; 5; 1; 2]%R (np_array [[0; 1; 2]; [1; 2; 3]]%nat) (np_array [0; 0])
    [[2; 2]; [2; 2]; [2; 2]]%R) as (energies & Hrun & Hlen & _).
  - reflexivity.
  - repeat constructor; simpl; lia.
  - reflexivity.
  - reflexivity.
  - repeat constructor.
  - exists energies. by split.
Defined.

Lemma harmonic_surplus_entry_ignored_witness :
  compute_harmonic_bond_potential (constant_coordinate 2) half_k_square
    [()] ([3; 5] ++ [1])%R (np_array [[0; 1]]%nat) (np_array [0])
  = compute_harmonic_bond_potential (constant_coordinate 2) half_k_square
      [()] [3; 5]%R (np_array [[0; 1]]%nat) (np_array [0]).
Proof.
  apply (harmonic_surplus_entry_ignored (constant_coordinate 2) half_k_square
    [()] [3; 5]%R 1%R (np_array [[0; 1]]%nat) (np_array [0])).
  - exists 1%nat. reflexivity.
  - reflexivity.
  - repeat constructor; simpl; lia.
Defined.

Section torsion_failures.
Context {conformation : Type}.
Context (compute_torsions : list conformation → ndarray (list nat) → result (list (list R))).

(** X6: with integer class ids and dihedral angles of the matching shape,
    the periodic torsion evaluator raises exactly when the length of the
    ParameterVector is not a multiple of [2 * n_periodicities] or some class
    id is outside [-n, n), for [n = len(params) // (2 * n_periodicities)];
    in particular a vector that is too long by whole rows is accepted. *)
Theorem torsion_evaluator_raises_iff xyz params quad_inds torsion_inds theta :
  nd_dtype torsion_inds = int64 →
  compute_torsions xyz quad_inds = Ok theta →
  Forall (λ row, length row = np_len torsion_inds) theta →
  raises (compute_periodic_torsion_potential compute_torsions
            xyz params quad_inds torsion_inds) ↔
  (length params mod (2 * n_periodicities) ≠ 0)%nat ∨
  Exists (λ c, ¬ (- Z.of_nat (length params / (2 * n_periodicities)) ≤ c
                  < Z.of_nat (length params / (2 * n_periodicities))))
    (nd_data torsion_inds).
Proof.
  intros Hdt Htheta Hrows.
  destruct (decide (length params mod (2 * n_periodicities) = 0)%nat) as [Hmod|Hmod].
  2:{ split; [by left|]. intros _. by apply torsion_evaluator_rejects_length. }
  unfold compute_periodic_torsion_potential. rewrite Htheta, bind_Ok. cbv zeta.
  pose proof Hmod as Hlen. apply Nat.Div0.div_exact in Hlen.
  set (P2 := (2 * n_periodicities)%nat) in *.
  set (n := (length params / P2)%nat) in *.
  unfold np_reshape. rewrite decide_True by lia. rewrite bind_Ok.
  pose proof (np_take_raises_iff (rows_of n P2 params) torsion_inds) as Htake.
  rewrite length_rows_of in Htake.
  destruct (np_take (rows_of n P2 params) torsion_inds) as [sel|e] eqn:Hsel.
  - rewrite !bind_Ok. unfold periodic_torsion_potential.
    rewrite (mapM_Ok_fmap _ (λ row,
      zip_with (λ th '(k, phase, ns), periodic_torsion_term th k phase ns) row
        (zip (zip (take n_periodicities <$> sel) (drop n_periodicities <$> sel))
             ((λ _, periodicities) <$> (take n_periodicities <$> sel))))).
    2:{ eapply Forall_impl; [exact Hrows|]. intros row Hrow. cbv beta.
        rewrite decide_True; [done|].
        by rewrite length_fmap, (np_take_length _ _ _ Hsel). }
    rewrite bind_Ok. split.
    + by intros [e He].
    + intros [?|Hex]; [done|].
      assert (raises (Ok sel : result (list (list R)))) as [e He]; [|done].
      apply Htake. by right.
  - rewrite bind_Raise. split.
    + intros _. right.
      assert (raises (Raise e : result (list (list R)))) as Hr by by exists e.
      apply Htake in Hr as [?|?]; [congruence|done].
    + intros _. by exists e.
Qed.

End torsion_failures.

Lemma torsion_evaluator_raises_iff_witness :
  length (two_class_params ++ two_class_params) = 48%nat ∧
  ¬ raises (compute_periodic_torsion_potential (constant_coordinate 0)
              [()] (two_class_params ++ two_class_params)
              (np_array [[0; 1; 2; 3]; [1; 2; 3; 4]]%nat) (np_array [0; 1])).
Proof.
  split; [reflexivity|].
  rewrite (torsion_evaluator_raises_iff (constant_coordinate 0)
    [()] (two_class_params ++ two_class_params)
    (np_array [[0; 1; 2; 3]; [1; 2; 3; 4]]%nat) (np_array [0; 1]) [[0; 0]]%R);
    [|reflexivity|reflexivity|repeat constructor].
  intros [Hmod|Hex].
  - apply Hmod. reflexivity.
  - apply Exists_cons in Hex as [Hout|Hex]; [apply Hout; simpl; lia|].
    apply Exists_cons in Hex as [Hout|Hex]; [apply Hout; simpl; lia|].
    by apply Exists_nil in Hex.
Defined.

(** ** The driver: the three energies *)

Section assigned_ids.
Context `{PySet (list Z)} (set_laws : PySetLaws (list Z)).

Lemma assigned_ids_in_range sym interactions :
  atoms_in_range sym interactions →
  interactions ≠ [] →
  ∃ ids,
    unique_interactions sym interactions = Ok (np_array interactions, ids) ∧
    nd_dtype ids = int64 ∧
    np_len ids = length interactions ∧
    (0 < n_unique_classes ids)%nat ∧
    Forall (λ c, 0 ≤ c < Z.of_nat (n_unique_classes ids)) (nd_data ids).
Proof using set_laws.
  intros Hwf Hne.
  destruct (unique_interactions_spec set_laws sym interactions Hwf) as (ids & Hrun & Hids).
  pose proof (set_iter_NoDup _ set_laws (canonical_key sym <$> interactions)) as Hnd.
  pose proof (set_iter_elem _ set_laws (canonical_key sym <$> interactions)) as Hel.
  pose proof (ids_length _ _ _ Hids) as Hlen. rewrite length_fmap in Hlen.
  assert (Forall (λ c, 0 ≤ c < Z.of_nat (n_unique_classes (np_array ids))) ids) as Hin.
  { apply Forall_forall. intros c Hc. unfold n_unique_classes. simpl.
    rewrite (len_set_ids _ _ _ Hnd Hel Hids).
    by apply (ids_range _ _ _ Hnd Hel Hids). }
  exists (np_array ids). split_and!; try done.
  - destruct ids; [|done]. by destruct interactions.
  - destruct ids as [|c ids]; [by destruct interactions|].
    apply Forall_cons in Hin as [Hc _]. lia.
Qed.

End assigned_ids.

Section main_script.
Context `{PySet (list Z)} (set_laws : PySetLaws (list Z)) {conformation : Type}.
Context (compute_distances compute_angles compute_torsions :
           list conformation → ndarray (list nat) → result (list (list R))).
Context (bond_formula angle_formula : R → R → R → R).
Context (randn : nat → list R).

(** X8: the script's sizing of the three random ParameterVectors fits the
    class ids of the assigners.  On a well-formed molecule with at least
    one bond, one angle and one proper torsion, with coordinates of the
    matching shapes, the three evaluations of the script raise nothing and
    each gives one energy per row of coordinates; the energies are those of
    the layouts read with the vectors [randn] returned. *)
Theorem main_energies_succeed (offmol : Molecule) (xyz : list conformation)
    (r theta phi : list (list R)) :
  well_formed offmol →
  bonds offmol ≠ [] → angles offmol ≠ [] → propers offmol ≠ [] →
  (∀ n, length (randn n) = n) →
  compute_distances xyz (np_array (bond_atoms <$> bonds offmol)) = Ok r →
  Forall (λ row, length row = length (bonds offmol)) r →
  compute_angles xyz (np_array (angle_atoms <$> angles offmol)) = Ok theta →
  Forall (λ row, length row = length (angles offmol)) theta →
  compute_torsions xyz (np_array (proper_atoms <$> propers offmol)) = Ok phi →
  Forall (λ row, length row = length (propers offmol)) phi →
  ∃ bond_inds angle_inds torsion_inds,
    get_unique_bonds offmol = Ok (np_array (bond_atoms <$> bonds offmol), bond_inds) ∧
    get_unique_angles offmol = Ok (np_array (angle_atoms <$> angles offmol), angle_inds) ∧
    get_unique_torsions offmol
    = Ok (np_array (proper_atoms <$> propers offmol), torsion_inds) ∧
    main_energies compute_distances compute_angles compute_torsions
      bond_formula angle_formula randn offmol xyz
    = Ok (harmonic_energy bond_formula
            (randn (2 * n_unique_classes bond_inds)) (nd_data bond_inds) <$> r,
          harmonic_energy angle_formula
            (randn (2 * n_unique_classes angle_inds)) (nd_data angle_inds) <$> theta,
          torsion_energy_rowwise
            (randn (2 * n_unique_classes torsion_inds * n_periodicities))
            (nd_data torsion_inds) <$> phi).
Proof using set_laws.
  intros (Hb & Ha & Ht) Hnb Hna Hnt Hrandn Hr Hrrows Htheta Hthrows Hphi Hphrows.
  destruct (assigned_ids_in_range set_laws _ _ Hb) as (bids & Hrunb & Hdtb & Hlenb & _ & Hinb).
  { by destruct (bonds offmol). }
  destruct (assigned_ids_in_range set_laws _ _ Ha) as (aids & Hruna & Hdta & Hlena & _ & Hina).
  { by destruct (angles offmol). }
  destruct (assigned_ids_in_range set_laws _ _ Ht) as (tids & Hrunt & Hdtt & Hlent & _ & Hint).
  { by destruct (propers offmol). }
  rewrite length_fmap in Hlenb. rewrite length_fmap in Hlena.
  rewrite length_fmap in Hlent.
  exists bids, aids, tids. split_and!; try done.
  unfold main_energies.
  rewrite get_unique_bonds_shape, Hrunb, bind_Ok. cbv beta iota zeta.
  rewrite compute_harmonic_bond_potential_shape.
  rewrite (harmonic_evaluator_energy _ _ _ _ _ _ r); try done.
  2:{ by rewrite Hrandn, Nat.mul_comm, Nat.div_mul. }
  2:{ by rewrite Hlenb. }
  rewrite bind_Ok.
  rewrite get_unique_angles_shape, Hruna, bind_Ok. cbv beta iota zeta.
  rewrite compute_harmonic_angle_potential_shape.
  rewrite (harmonic_evaluator_energy _ _ _ _ _ _ theta); try done.
  2:{ by rewrite Hrandn, Nat.mul_comm, Nat.div_mul. }
  2:{ by rewrite Hlena. }
  rewrite bind_Ok.
  rewrite get_unique_torsions_shape, Hrunt, bind_Ok. cbv beta iota zeta.
  assert (2 * n_unique_classes tids * n_periodicities
          = n_unique_classes tids * (2 * n_periodicities))%nat as Hsize by lia.
  rewrite (torsion_evaluator_energy _ _ _ _ _ phi); try done.
  - by rewrite Hrandn, Hsize, Nat.Div0.mod_mul.
  - by rewrite Hrandn, Hsize, Nat.div_mul.
  - by rewrite Hlent.
Qed.

End main_script.

Lemma main_energies_succeed_witness :
  ∃ bond_energies angle_energies torsion_energies,
    main_energies (H := dedup_order) (constant_coordinate 1) (constant_coordinate 2)
      (constant_coordinate 0) half_k_square half_k_square ones chain4 [(); ()]
    = Ok (bond_energies, angle_energies, torsion_energies) ∧
    length bond_energies = 2%nat ∧ length angle_energies = 2%nat ∧
    length torsion_energies = 2%nat.
Proof.
  destruct (@main_energies_succeed dedup_order dedup_order_laws unit
    (constant_coordinate 1) (constant_coordinate 2) (constant_coordinate 0)
    half_k_square half_k_square ones chain4 [(); ()]
    [[1; 1; 1]; [1; 1; 1]]%R [[2; 2]; [2; 2]]%R [[0]; [0]]%R)
    as (bond_inds & angle_inds & torsion_inds & _ & _ & _ & Hmain).
  - unfold well_formed, atoms_in_range. split_and!; repeat constructor; simpl; lia.
  - done.
  - done.
  - done.
  - intros n. apply length_replicate.
  - reflexivity.
  - repeat constructor.
  - reflexivity.
  - repeat constructor.
  - reflexivity.
  - repeat constructor.
  - eexists _, _, _. split; [exact Hmain|]. by rewrite !length_fmap.
Defined.

(** ** The driver: the loss *)






Section loss_properties.
Context {conformation : Type}.
Context (compute_distances compute_angles compute_torsions :
           list conformation → ndarray (list nat) → result (list (list R))).
Context (bond_formula angle_formula : R → R → R → R).
Context (xyz : list conformation).
Context (pair_inds triple_inds quad_inds : ndarray (list nat)).
Context (bond_inds angle_inds torsion_inds : ndarray Z).
Context (n_bond_params n_angle_params n_torsion_params : nat).
Context (valence_target : list R).

(** X9: [loss] cuts the stacked vector [hstack([bond_params, angle_params,
    torsion_params])] back into its three parts when there is at least one
    torsion parameter.  With no torsion parameter the last slice
    [all_params[-0:]] is the whole stacked vector, not the empty one, and
    that is what the torsion evaluator is given. *)
Theorem loss_slices_stacked_vector (bond_params angle_params torsion_params : list R) :
  length bond_params = n_bond_params →
  length angle_params = n_angle_params →
  length torsion_params = n_torsion_params →
  (torsion_params ≠ [] →
   (loss compute_distances compute_angles compute_torsions bond_formula angle_formula
     xyz pair_inds triple_inds quad_inds bond_inds angle_inds torsion_inds
     n_bond_params n_angle_params n_torsion_params valence_target
     (bond_params ++ angle_params ++ torsion_params))
   = (loss_of_parts compute_distances compute_angles compute_torsions
     bond_formula angle_formula
     xyz pair_inds triple_inds quad_inds bond_inds angle_inds torsion_inds
     valence_target
     bond_params angle_params torsion_params)) ∧
  (torsion_params = [] →
   (loss compute_distances compute_angles compute_torsions bond_formula angle_formula
     xyz pair_inds triple_inds quad_inds bond_inds angle_inds torsion_inds
     n_bond_params n_angle_params n_torsion_params valence_target
     (bond_params ++ angle_params ++ torsion_params))
   = (loss_of_parts compute_distances compute_angles compute_torsions
     bond_formula angle_formula
     xyz pair_inds triple_inds quad_inds bond_inds angle_inds torsion_inds
     valence_target
     bond_params angle_params (bond_params ++ angle_params))).
Proof.
  intros Hb Ha Ht. unfold loss, slice_to, slice_between, slice_last.
  rewrite take_app_length' by done.
  rewrite app_assoc, (take_app_length' (bond_params ++ angle_params))
    by (rewrite length_app; lia).
  rewrite drop_app_length' by done.
  split.
  - intros Hne. destruct n_torsion_params as [|n] eqn:Hn.
    { by destruct torsion_params. }
    rewrite !length_app.
    replace (length bond_params + length angle_params + length torsion_params - S n)%nat
      with (length (bond_params ++ angle_params)) by (rewrite length_app; lia).
    by rewrite drop_app_length.
  - intros ->. simpl in Ht. rewrite <- Ht. by rewrite app_nil_r.
Qed.


End loss_properties.

Lemma loss_slices_stacked_vector_witness :
  loss (constant_coordinate 1) (constant_coordinate 2) (constant_coordinate 0)
    half_k_square half_k_square [()]
    (np_array [[0; 1]]%nat) (np_array [[0; 1; 2]]%nat) (np_array [[0; 1; 2; 3]]%nat)
    (np_array [0]) (np_array [0]) (np_array [0]) 2 2 12 [7%R]
    (ones 2 ++ ones 2 ++ ones 12)
  = loss_of_parts (constant_coordinate 1) (constant_coordinate 2) (constant_coordinate 0)
      half_k_square half_k_square [()]
      (np_array [[0; 1]]%nat) (np_array [[0; 1; 2]]%nat) (np_array [[0; 1; 2; 3]]%nat)
      (np_array [0]) (np_array [0]) (np_array [0]) [7%R]
      (ones 2) (ones 2) (ones 12).
Proof.
  destruct (loss_slices_stacked_vector
    (constant_coordinate 1) (constant_coordinate 2) (constant_coordinate 0)
    half_k_square half_k_square [()]
    (np_array [[0; 1]]%nat) (np_array [[0; 1; 2]]%nat) (np_array [[0; 1; 2; 3]]%nat)
    (np_array [0]) (np_array [0]) (np_array [0]) 2 2 12 [7%R]
    (ones 2) (ones 2) (ones 12)) as [Hcut _].
  - reflexivity.
  - reflexivity.
  - reflexivity.
  - apply Hcut. done.
Defined.

(** ** The driver: counting the classes of a data set *)




Section counting.
Context `{PySet (list Z)} (set_laws : PySetLaws (list Z)).



End counting.

Example types_fraction_no_torsions :
  types_fraction (@get_unique_torsions dedup_order) [methane; methane] = Ok None.
Proof. vm_compute. reflexivity. Qed.

